(** * motVIZ3: conservation scoring and motif detection

    A shallow embedding of [scripts/motviz/motvizpy/stats.py] (class
    [Analysis]) and the properties of its scoring pipeline.

    Modelling conventions.
    - Where the values computed matter (normalization, smoothing, the mean
      that filters the minima), a numpy [float64] is a binary64 number of
      the kernel ([PrimFloat.float]) with its IEEE 754 operations: module
      [Float64].
    - Where only shapes, errors and comparisons of given values matter, a
      score is an exact rational ([Q], compared with [Qeq], written [==])
      and [npfloat] adds [NaN] and the two infinities for the quotient of a
      division by zero.
    - [np.log2] is the real logarithm to base 2; the conservation score is
      therefore a real number, built from a rational product.
    - A Python exception is a value of [exn]; a function that may raise
      returns a [result].
    - A 1-d array is a [list]; an [S1] matrix is the list of its rows. *)

From Stdlib Require Import List Sorted Arith ZArith QArith Lia Bool.
From Stdlib Require Import Reals Qreals Lra Lqa.
From Stdlib Require Import Strings.Byte.
From Stdlib Require Strings.String.
From Stdlib Require Floats.
From Stdlib Require Import Decimal DecimalString DecimalPos DecimalZ.
Import ListNotations.
Import String.StringSyntax.
Delimit Scope string_scope with string.

Open Scope Q_scope.

(** ** Exceptions *)

Inductive exn : Type :=
| ValueError
| IndexError.

Inductive result (A : Type) : Type :=
| Ok (a : A)
| Raise (e : exn).

Arguments Ok {A} a.
Arguments Raise {A} e.

Definition bind {A B : Type} (m : result A) (k : A -> result B) : result B :=
  match m with
  | Ok a => k a
  | Raise e => Raise e
  end.

Notation "x <- m ;; k" := (bind m (fun x => k))
  (at level 61, m at next level, right associativity).

(** [np.apply_along_axis] runs the function column after column and stops at
    the first exception. *)
Fixpoint mapM {A B : Type} (f : A -> result B) (l : list A) : result (list B) :=
  match l with
  | [] => Ok []
  | a :: t => b <- f a ;; bs <- mapM f t ;; Ok (b :: bs)
  end.

(** ** [collections.Counter]

    A dict keeps its keys in the order of first insertion, so a counter is an
    association list in the order of first occurrence. *)

Definition counter := list (byte * nat).

Fixpoint counter_incr (k : byte) (c : counter) : counter :=
  match c with
  | [] => [(k, 1%nat)]
  | (k', v) :: t =>
      if Byte.eqb k k' then (k', S v) :: t else (k', v) :: counter_incr k t
  end.

Definition Counter (array : list byte) : counter :=
  fold_left (fun c k => counter_incr k c) array [].

Definition values (c : counter) : list nat := map snd c.

(** The builtin [max] of an iterable: [ValueError] when it is empty. *)
Definition py_max (l : list nat) : result nat :=
  match l with
  | [] => Raise ValueError
  | x :: t => Ok (fold_left Nat.max t x)
  end.

(** ** [Analysis._shannon] *)

(** [v / 5] for a count [v]. *)
Definition count_over_5 (v : nat) : Q := inject_Z (Z.of_nat v) / 5.

(** The loop [pA = 1; for k, v in aa_count.items(): pA *= (v / 5)]. *)
Definition pA_loop (c : counter) : Q :=
  fold_left (fun pA kv => pA * count_over_5 (snd kv)) c 1.

Definition log2 (x : R) : R := (ln x / ln 2)%R.

(** [-np.sum(pA*np.log2(pA))]: the sum of a scalar is the scalar. *)
Definition neg_plog2 (pA : Q) : R := (- (Q2R pA * log2 (Q2R pA)))%R.

Definition column_pA (array : list byte) : result Q :=
  let aa_count := Counter array in
  max_value <- py_max (values aa_count) ;;
  Ok (pA_loop aa_count).

Definition _shannon (array : list byte) : result R :=
  pA <- column_pA array ;; Ok (neg_plog2 pA).

(** ** [Analysis.conservation_score]

    [np.apply_along_axis(self._shannon, 0, np_seq)].  The matrix is the list
    of its rows, all of one length.  No row at all is the array
    [np.asarray([], dtype='S1')] of shape [(0,)], on which the function is
    applied once, to the empty array.  Rows of length 0 give a dimension of
    size 0 to iterate over, which [apply_along_axis] refuses with
    [ValueError]. *)

Definition column (j : nat) (np_seq : list (list byte)) : list byte :=
  map (fun row => nth j row Byte.x00) np_seq.

Definition columns (width : nat) (np_seq : list (list byte)) : list (list byte) :=
  map (fun j => column j np_seq) (seq 0 width).

Definition conservation_score (np_seq : list (list byte)) : result (list R) :=
  match np_seq with
  | [] => s <- _shannon [] ;; Ok [s]
  | row :: _ =>
      match length row with
      | O => Raise ValueError
      | S _ => mapM _shannon (columns (length row) np_seq)
      end
  end.

(** The byte [b'A'], and the alignment of three sequences [AAAA]. *)
Definition sym_A : byte := x41.

Definition three_AAAA : list (list byte) :=
  let r := [sym_A; sym_A; sym_A; sym_A] in [r; r; r].

(** ** numpy floats and reductions *)

Inductive npfloat : Type :=
| Finite (q : Q)
| PosInf
| NegInf
| NaN.

Definition Qltb (x y : Q) : bool := negb (Qle_bool y x).

(** True division of one finite float by another: a division by zero warns
    and yields [nan] for [0/0] and an infinity otherwise; it does not raise. *)
Definition np_divide (a b : Q) : npfloat :=
  if Qeq_bool b 0 then
    if Qeq_bool a 0 then NaN else if Qltb 0 a then PosInf else NegInf
  else Finite (a / b).

(** [x < y] for a finite [x]: every comparison with [nan] is false. *)
Definition np_less (x : Q) (y : npfloat) : bool :=
  match y with
  | Finite m => Qltb x m
  | PosInf => true
  | NegInf => false
  | NaN => false
  end.

Definition np_sum (a : list Q) : Q := fold_left Qplus a 0.

(** [np.mean]: the sum over the size; [nan] on an array of size 0. *)
Definition np_mean (a : list Q) : npfloat :=
  np_divide (np_sum a) (inject_Z (Z.of_nat (length a))).

(** ** [Analysis.find_local_minima] *)

(** [data.take(i, mode='clip')]: an index outside the array is clipped to its
    first or last position. *)
Definition np_take_clip (data : list Q) (i : Z) : Q :=
  nth (Z.to_nat (Z.max 0 (Z.min i (Z.of_nat (length data) - 1)))) data 0.

(** scipy's [_boolrelextrema(data, np.less, order=1, mode='clip')]: position
    [loc] is compared with [loc + 1] and with [loc - 1]. *)
Definition boolrelextrema_less (data : list Q) : list bool :=
  map (fun loc =>
         let main := np_take_clip data (Z.of_nat loc) in
         let plus := np_take_clip data (Z.of_nat loc + 1) in
         let minus := np_take_clip data (Z.of_nat loc - 1) in
         Qltb main plus && Qltb main minus)
      (seq 0 (length data)).

(** [np.nonzero]: the positions of the true entries, ascending. *)
Fixpoint np_nonzero_from (k : nat) (mask : list bool) : list nat :=
  match mask with
  | [] => []
  | b :: t => if b then k :: np_nonzero_from (S k) t else np_nonzero_from (S k) t
  end.

Definition np_nonzero (mask : list bool) : list nat := np_nonzero_from 0 mask.

(** [argrelextrema(data, np.less)] returns a tuple with one array of indices
    for the one axis of [data]. *)
Definition argrelextrema_less (data : list Q) : list (list nat) :=
  [np_nonzero (boolrelextrema_less data)].

Definition find_local_minima (data : list Q) : list nat :=
  let local_minima := argrelextrema_less data in
  let data_mean := np_mean data in
  fold_left
    (fun polished_minima i =>
       fold_left
         (fun polished_minima j =>
            if np_less (nth j data 0) data_mean
            then polished_minima ++ [j]
            else polished_minima)
         i polished_minima)
    local_minima [].

(** ** [Analysis.moving_average] *)

Fixpoint cumsum_from (acc : Q) (data : list Q) : list Q :=
  match data with
  | [] => []
  | x :: t => (acc + x) :: cumsum_from (acc + x) t
  end.

(** [np.cumsum]: the first entry is the first element itself. *)
Definition np_cumsum (data : list Q) : list Q :=
  match data with
  | [] => []
  | x :: t => x :: cumsum_from x t
  end.

(** [a[:-n]] for [n >= 0]; with [n = 0] the stop is [-0 = 0], so the slice is
    empty. *)
Definition slice_until_minus (n : nat) (a : list Q) : list Q :=
  match n with
  | O => []
  | S _ => firstn (length a - n) a
  end.

(** [a[k:]] for an integer [k]; a negative [k] counts from the end. *)
Definition slice_from (k : Z) (a : list Q) : list Q :=
  if (k <? 0)%Z
  then skipn (Z.to_nat (Z.max 0 (Z.of_nat (length a) + k))) a
  else skipn (Z.to_nat k) a.

(** [a - b] on 1-d arrays: equal sizes, or one of size 1 broadcast to the
    other; anything else is a [ValueError]. *)
Definition np_subtract (a b : list Q) : result (list Q) :=
  if (length a =? length b)%nat then Ok (map (fun xy => fst xy - snd xy) (combine a b))
  else match a, b with
       | [x], _ => Ok (map (fun y => x - y) b)
       | _, [y] => Ok (map (fun x => x - y) a)
       | _, _ => Raise ValueError
       end.

(** [a[n:] = v]: [v] has the size of the slice or is of size 1 and
    broadcast; anything else is a [ValueError]. *)
Definition setitem_slice_from (n : nat) (a v : list Q) : result (list Q) :=
  let size := length (skipn n a) in
  if (length v =? size)%nat then Ok (firstn n a ++ v)
  else match v with
       | [x] => Ok (firstn n a ++ repeat x size)
       | _ => Raise ValueError
       end.

(** The window size [n] is a non-negative int.  With [n = 0] the two slices
    differ in size unless [data] is empty, so the division by [n] is only
    reached on an array of size 0. *)
Definition moving_average (data : list Q) (n : nat) : result (list Q) :=
  let avg_data := np_cumsum data in
  diff <- np_subtract (skipn n avg_data) (slice_until_minus n avg_data) ;;
  avg_data <- setitem_slice_from n avg_data diff ;;
  Ok (map (fun x => x / inject_Z (Z.of_nat n))
          (slice_from (Z.of_nat n - 1) avg_data)).

(** ** [Analysis.find_motif] *)

(** [data[lo:hi]] for [0 <= lo]. *)
Definition py_slice (data : list Q) (lo hi : Z) : list Q :=
  firstn (Z.to_nat (hi - lo)) (skipn (Z.to_nat lo) data).

(** The loop over [minima], with the two lists it appends to.  The guard
    [i - 4 > 0] makes the lower bound [i - 1] of the slice non-negative;
    [motif_stretch[0]] on an empty slice is an [IndexError]. *)
Fixpoint find_motif_loop (data : list Q) (threshold : Q) (minima : list Z)
    (pos_motif : list Q) (pos : list Z) : result (list Q * list Z) :=
  match minima with
  | [] => Ok (pos_motif, pos)
  | i :: rest =>
      if (0 <? i - 4)%Z then
        let motif_stretch := py_slice data (i - 1) (i + 1) in
        if forallb (fun x => Qltb x threshold) motif_stretch then
          match motif_stretch with
          | [] => Raise IndexError
          | first :: _ =>
              find_motif_loop data threshold rest (pos_motif ++ [first]) (pos ++ [i])
          end
        else find_motif_loop data threshold rest pos_motif pos
      else find_motif_loop data threshold rest pos_motif pos
  end.

Definition find_motif (data : list Q) (minima : list Z) (threshold : Q)
    : result (list Q * list Z) :=
  find_motif_loop data threshold minima [] [].

(** ** Further parts of the module *)

(** [aa_count[k]]: a [Counter] answers 0 for a key it does not hold. *)
Fixpoint counter_get (c : counter) (k : byte) : nat :=
  match c with
  | [] => 0%nat
  | (k', v) :: t => if Byte.eqb k k' then v else counter_get t k
  end.

(** The head of [seq_extract]: the format tag handed to [AlignIO.read].
    [sth] stands for [stockholm], [aln] (and [clustal] itself) for
    [clustal]; every other tag is passed on as it is. *)
Definition seq_extract_format (file_ext : String.string) : String.string :=
  if String.eqb file_ext "sth"%string then "stockholm"%string
  else if String.eqb file_ext "aln"%string || String.eqb file_ext "clustal"%string
       then "clustal"%string
       else file_ext.

(** ** [Analysis.pymol_script_writer]

    The selection that the script creates for a motif at position
    [pos[i]] is named [mot{pos[i]}]. *)

(** [str] of an int, as an f-string formats it. *)
Definition py_str_int (z : Z) : String.string :=
  NilZero.string_of_int (Z.to_int z).

(** The name [mot{pos[i]}] of the selection of a motif. *)
Definition mot_name (p : Z) : String.string :=
  String.append "mot"%string (py_str_int p).

(** ** The numeric stages on binary64

    [normalize_data], [moving_average] and [find_local_minima] on the
    binary64 numbers that the arrays hold.  Every operation is the IEEE 754
    one that numpy performs: it rounds to nearest (ties to even), overflows
    to an infinity and yields [nan] for [0/0] and for [inf - inf]. *)

Module Float64.
Import PrimFloat.

(** An int operand of a float operation becomes the nearest float. *)
Definition of_Z (z : Z) : float :=
  FloatOps.SF2Prim
    (SpecFloat.binary_normalize FloatOps.prec FloatOps.emax z 0 false).

(** The exact value of a finite float; [nan] and the infinities have
    none. *)
Definition to_Q (x : float) : option Q :=
  match FloatOps.Prim2SF x with
  | SpecFloat.S754_zero _ => Some 0
  | SpecFloat.S754_finite s m e =>
      Some ((if s then - inject_Z (Zpos m) else inject_Z (Zpos m)) * Qpower 2 e)
  | SpecFloat.S754_infinity _ => None
  | SpecFloat.S754_nan => None
  end.

(** [x] is finite and its value is [q]. *)
Definition exact (x : float) (q : Q) : Prop :=
  match to_Q x with
  | Some r => r == q
  | None => False
  end.

(** The operation on [a] and [b] is performed without rounding: operands
    and result are finite and the value of the result is the exact
    difference, product or quotient of the values of the operands. *)
Definition sub_exact (a b : float) : Prop :=
  match to_Q a, to_Q b, to_Q (a - b) with
  | Some va, Some vb, Some r => r == va - vb
  | _, _, _ => False
  end.


Definition div_exact (a b : float) : Prop :=
  match to_Q a, to_Q b, to_Q (a / b) with
  | Some va, Some vb, Some r => r == va / vb
  | _, _, _ => False
  end.

(** The arithmetic mean of a sequence, in exact arithmetic. *)
Fixpoint exact_sum (xs : list float) : option Q :=
  match xs with
  | [] => Some 0
  | x :: t =>
      match to_Q x, exact_sum t with
      | Some a, Some s => Some (a + s)
      | _, _ => None
      end
  end.

Definition exact_mean (xs : list float) : option Q :=
  option_map (fun s => s / inject_Z (Z.of_nat (length xs))) (exact_sum xs).

(** *** [np.min], [np.max], [np.ptp]

    One step of the reductions [minimum] and [maximum]: the accumulator is
    kept when it compares below (above) the next element or is [nan], so a
    [nan] in the array is the result.  An array of size 0 raises
    [ValueError]. *)
Definition minimum_step (io1 in2 : float) : float :=
  if (io1 <? in2)%float || is_nan io1 then io1 else in2.

Definition maximum_step (io1 in2 : float) : float :=
  if (in2 <? io1)%float || is_nan io1 then io1 else in2.

Definition np_min (a : list float) : result float :=
  match a with
  | [] => Raise ValueError
  | x :: t => Ok (fold_left minimum_step t x)
  end.

Definition np_max (a : list float) : result float :=
  match a with
  | [] => Raise ValueError
  | x :: t => Ok (fold_left maximum_step t x)
  end.

Definition np_ptp (a : list float) : result float :=
  mx <- np_max a ;; mn <- np_min a ;; Ok (mx - mn)%float.

(** *** [Analysis.normalize_data]

    [2.*(ent_list - np.min(ent_list))/np.ptp(ent_list)-1]: the product is
    formed first, then the quotient, then the difference.  A division by
    zero only warns. *)
Definition normalize_data (ent_list : list float) : result (list float) :=
  mn <- np_min ent_list ;;
  ptp <- np_ptp ent_list ;;
  Ok (map (fun x => (2 * (x - mn) / ptp - 1)%float) ent_list).

(** *** [Analysis.moving_average] *)

Fixpoint cumsum_from (acc : float) (data : list float) : list float :=
  match data with
  | [] => []
  | x :: t => (acc + x)%float :: cumsum_from (acc + x)%float t
  end.

(** [np.cumsum(data, dtype=float)]: the running sums, each the float sum
    of the one before and the next element. *)
Definition np_cumsum (data : list float) : list float :=
  match data with
  | [] => []
  | x :: t => x :: cumsum_from x t
  end.

(** A bound [k] of a slice of an array of size [len]: a negative bound
    counts from the end, and both ways the bound is clipped to the array. *)
Definition py_bound (k : Z) (len : nat) : nat :=
  if (k <? 0)%Z then Z.to_nat (Z.max 0 (Z.of_nat len + k))
  else Nat.min (Z.to_nat k) len.

(** [a[k:]] and [a[:k]]. *)
Definition slice_from (k : Z) (a : list float) : list float :=
  skipn (py_bound k (length a)) a.

Definition slice_until (k : Z) (a : list float) : list float :=
  firstn (py_bound k (length a)) a.

(** [a - b] on 1-d arrays: equal sizes, or one of size 1 broadcast to the
    other; anything else is a [ValueError]. *)
Definition np_subtract (a b : list float) : result (list float) :=
  if (length a =? length b)%nat
  then Ok (map (fun xy => (fst xy - snd xy)%float) (combine a b))
  else match a, b with
       | [x], _ => Ok (map (fun y => (x - y)%float) b)
       | _, [y] => Ok (map (fun x => (x - y)%float) a)
       | _, _ => Raise ValueError
       end.

(** [a[k:] = v]: [v] has the size of the slice or is of size 1 and
    broadcast; anything else is a [ValueError]. *)
Definition setitem_slice_from (k : Z) (a v : list float) : result (list float) :=
  let start := py_bound k (length a) in
  let size := length (skipn start a) in
  if (length v =? size)%nat then Ok (firstn start a ++ v)
  else match v with
       | [x] => Ok (firstn start a ++ repeat x size)
       | _ => Raise ValueError
       end.

(** The window [n] is any int; [avg_data[:-n]] has the bound [-n]. *)
Definition moving_average (data : list float) (n : Z) : result (list float) :=
  let avg_data := np_cumsum data in
  diff <- np_subtract (slice_from n avg_data) (slice_until (- n) avg_data) ;;
  avg_data <- setitem_slice_from n avg_data diff ;;
  Ok (map (fun x => (x / of_Z n)%float) (slice_from (n - 1) avg_data)).

(** What entry [i] of the result is taken from, for a window [n] that
    fits, in terms of the running sums [c]: [c[n-1]] for [i = 0] and
    [c[n-1+i] - c[i-1]] after it. *)
Definition window_total (c : list float) (n i : nat) : float :=
  match i with
  | O => nth (n - 1) c nan
  | S j => (nth (n + j) c nan - nth j c nan)%float
  end.

(** The windowed mean of the specification: the arithmetic mean of
    [input[i .. i+n-1]], in exact arithmetic. *)
Definition windowed_mean (input : list float) (n i : nat) : option Q :=
  exact_mean (firstn n (skipn i input)).

(** For the window [n], every float operation of [moving_average] on
    [data] is performed without rounding: [n] itself is a float, each
    running sum is the exact sum of the elements it covers, and each
    difference of two running sums and each quotient by [n] is exact. *)
Definition computed_exactly (data : list float) (n : nat) : Prop :=
  let c := np_cumsum data in
  exact (of_Z (Z.of_nat n)) (inject_Z (Z.of_nat n)) /\
  (forall k, (k < length data)%nat ->
             match exact_sum (firstn (S k) data) with
             | Some s => exact (nth k c nan) s
             | None => False
             end) /\
  (forall j, (n + j < length data)%nat ->
             sub_exact (nth (n + j) c nan) (nth j c nan)) /\
  (forall i, (i < length data - n + 1)%nat ->
             div_exact (window_total c n i) (of_Z (Z.of_nat n))).

(** *** [Analysis.find_local_minima]

    [np.mean] divides the sum that [np.add.reduce] returns by the size.
    The order in which numpy adds the elements (in blocks, pairwise), and
    with it the rounding of the sum, is numpy's own; the reduction is a
    parameter of the model. *)
Section Mean.

Variable np_add_reduce : list float -> float.

Definition np_mean (a : list float) : float :=
  (np_add_reduce a / of_Z (Z.of_nat (length a)))%float.

Definition np_take_clip (data : list float) (i : Z) : float :=
  nth (Z.to_nat (Z.max 0 (Z.min i (Z.of_nat (length data) - 1)))) data nan.

Definition boolrelextrema_less (data : list float) : list bool :=
  map (fun loc =>
         let main := np_take_clip data (Z.of_nat loc) in
         let plus := np_take_clip data (Z.of_nat loc + 1) in
         let minus := np_take_clip data (Z.of_nat loc - 1) in
         (main <? plus)%float && (main <? minus)%float)
      (seq 0 (length data)).

Definition argrelextrema_less (data : list float) : list (list nat) :=
  [np_nonzero (boolrelextrema_less data)].

Definition find_local_minima (data : list float) : list nat :=
  let local_minima := argrelextrema_less data in
  let data_mean := np_mean data in
  fold_left
    (fun polished_minima i =>
       fold_left
         (fun polished_minima j =>
            if (nth j data nan <? data_mean)%float
            then polished_minima ++ [j]
            else polished_minima)
         i polished_minima)
    local_minima [].

End Mean.

(** The sum of an array of fewer than 8 elements: numpy adds them one
    after the other, from the left. *)
Definition add_reduce_in_order (a : list float) : float :=
  fold_left add a 0%float.

End Float64.

(** ** Facts about the logarithm term *)

Lemma ln_2_pos : (0 < ln 2)%R.
Proof.
  rewrite <- ln_1. apply ln_increasing; Lra.lra.
Qed.

Lemma log2_1 : log2 1 = 0%R.
Proof.
  unfold log2. rewrite ln_1. unfold Rdiv. apply Rmult_0_l.
Qed.

Lemma log2_neg (x : R) : (0 < x < 1)%R -> (log2 x < 0)%R.
Proof.
  intros [Hx0 Hx1]. unfold log2, Rdiv.
  assert (Hln : (ln x < 0)%R) by (rewrite <- ln_1; apply ln_increasing; Lra.lra).
  assert (Hinv : (0 < / ln 2)%R) by (apply Rinv_0_lt_compat, ln_2_pos).
  Lra.nra.
Qed.

Lemma neg_plog2_one (p : Q) : p == 1 -> neg_plog2 p = 0%R.
Proof.
  intros Hp. unfold neg_plog2.
  rewrite (Qeq_eqR _ _ Hp).
  replace (Q2R 1) with 1%R by (unfold Q2R; simpl; Lra.lra).
  rewrite log2_1. Lra.lra.
Qed.

Lemma neg_plog2_pos (p : Q) : 0 < p -> p < 1 -> (0 < neg_plog2 p)%R.
Proof.
  intros H0 H1. unfold neg_plog2.
  apply Qlt_Rlt in H0. apply Qlt_Rlt in H1.
  replace (Q2R 0) with 0%R in H0 by (unfold Q2R; simpl; Lra.lra).
  replace (Q2R 1) with 1%R in H1 by (unfold Q2R; simpl; Lra.lra).
  assert (Hl : (log2 (Q2R p) < 0)%R) by (apply log2_neg; Lra.lra).
  Lra.nra.
Qed.

(** ** The conservation score *)

Lemma Counter_uniform_acc (a : byte) (k v : nat) :
  fold_left (fun c x => counter_incr x c) (repeat a k) [(a, v)] = [(a, (v + k)%nat)].
Proof.
  revert v. induction k as [|k IH]; intros v; simpl.
  - now rewrite Nat.add_0_r.
  - rewrite (Byte.byte_dec_lb eq_refl). rewrite IH. do 2 f_equal. lia.
Qed.

Lemma Counter_uniform (a : byte) (N : nat) :
  Counter (repeat a (S N)) = [(a, S N)].
Proof.
  unfold Counter. simpl. now rewrite Counter_uniform_acc.
Qed.

(** A column that holds one symbol in all of its [N >= 1] rows has the
    product [N / 5], whatever [N] is. *)
Lemma column_pA_uniform (a : byte) (N : nat) :
  column_pA (repeat a (S N)) = Ok (1 * count_over_5 (S N)).
Proof.
  unfold column_pA. now rewrite Counter_uniform.
Qed.

(** With five sequences a uniform column scores 0. *)
Lemma shannon_uniform_five (a : byte) :
  _shannon (repeat a 5) = Ok (neg_plog2 (1 * count_over_5 5)) /\
  neg_plog2 (1 * count_over_5 5) = 0%R.
Proof.
  split.
  - unfold _shannon. now rewrite column_pA_uniform.
  - apply neg_plog2_one. reflexivity.
Qed.

(** C1: the score of a column is [-P*log2(P)] with [P] the product of
    [v / N] over the distinct symbols, [N] the number of sequences.  The code
    divides every count by the constant 5 instead of [N]: on a column of
    three sequences that all hold [A] it returns [-(3/5)*log2(3/5)], not the
    value for [P = 3/3]. *)
Theorem shannon_divides_counts_by_five :
  _shannon [sym_A; sym_A; sym_A] = Ok (neg_plog2 (3 # 5)) /\
  neg_plog2 (3 # 5) <> neg_plog2 (3 # 3).
Proof.
  split.
  - reflexivity.
  - rewrite (neg_plog2_one (3 # 3)) by reflexivity.
    assert (H : (0 < neg_plog2 (3 # 5))%R) by (apply neg_plog2_pos; reflexivity).
    Lra.lra.
Qed.

(** C2: a column with the same symbol in all sequences scores 0, so three
    sequences [AAAA] score [0,0,0,0].  The code returns four times
    [-(3/5)*log2(3/5)], which is positive. *)
Theorem conservation_score_three_AAAA :
  conservation_score three_AAAA = Ok (repeat (neg_plog2 (3 # 5)) 4) /\
  (0 < neg_plog2 (3 # 5))%R.
Proof.
  split.
  - reflexivity.
  - apply neg_plog2_pos; reflexivity.
Qed.

(** C9: with no sequence at all the scoring fails: the column handed to
    [_shannon] is empty and [max] of its empty counter raises [ValueError]. *)
Theorem conservation_score_no_sequence :
  conservation_score [] = Raise ValueError /\ _shannon [] = Raise ValueError.
Proof.
  split; reflexivity.
Qed.

Lemma Qeq_bool_false (x y : Q) : ~ x == y -> Qeq_bool x y = false.
Proof.
  intros H. destruct (Qeq_bool x y) eqn:E; [| reflexivity].
  apply Qeq_bool_iff in E. contradiction.
Qed.

(** ** Local minima *)

Lemma Qltb_lt (x y : Q) : Qltb x y = true <-> x < y.
Proof.
  unfold Qltb. rewrite negb_true_iff. split.
  - intros H. apply Qnot_le_lt. intros Hle.
    apply Qle_bool_iff in Hle. congruence.
  - intros H. destruct (Qle_bool y x) eqn:E; [| reflexivity].
    apply Qle_bool_iff in E. exfalso. exact (Qlt_not_le _ _ H E).
Qed.

Lemma append_loop_filter {A : Type} (p : A -> bool) (l acc : list A) :
  fold_left (fun acc j => if p j then acc ++ [j] else acc) l acc =
  acc ++ filter p l.
Proof.
  revert acc. induction l as [|j l IH]; intros acc; simpl.
  - now rewrite app_nil_r.
  - rewrite IH. destruct (p j); [| reflexivity].
    now rewrite <- app_assoc.
Qed.

Lemma find_local_minima_filter (data : list Q) :
  find_local_minima data =
  filter (fun j => np_less (nth j data 0) (np_mean data))
         (np_nonzero (boolrelextrema_less data)).
Proof.
  unfold find_local_minima, argrelextrema_less. simpl.
  apply (append_loop_filter (fun j => np_less (nth j data 0) (np_mean data))).
Qed.

Lemma np_nonzero_from_In (mask : list bool) (k i : nat) :
  In i (np_nonzero_from k mask) <->
  (k <= i < k + length mask)%nat /\ nth (i - k) mask false = true.
Proof.
  revert k. induction mask as [|b t IH]; intros k; simpl.
  - split; [contradiction | lia].
  - assert (Hstep : In i (np_nonzero_from (S k) t) <->
                    (k < i < k + S (length t))%nat /\
                    nth (i - k) (b :: t) false = true).
    { rewrite IH. split.
      - intros [Hr Hn]. split; [lia |].
        replace (i - k)%nat with (S (i - S k)) by lia. exact Hn.
      - intros [Hr Hn]. split; [lia |].
        replace (i - k)%nat with (S (i - S k)) in Hn by lia. exact Hn. }
    destruct b; simpl.
    + rewrite Hstep. split.
      * intros [<- | [Hr Hn]].
        -- split; [lia |]. now rewrite Nat.sub_diag.
        -- split; [lia | exact Hn].
      * intros [Hr Hn]. destruct (Nat.eq_dec k i) as [-> | Hne]; [now left |].
        right. split; [lia | exact Hn].
    + rewrite Hstep. split.
      * intros [Hr Hn]. split; [lia | exact Hn].
      * intros [Hr Hn]. split; [| exact Hn].
        destruct (Nat.eq_dec k i) as [-> | Hne]; [| lia].
        rewrite Nat.sub_diag in Hn. discriminate.
Qed.

Lemma np_nonzero_from_sorted (mask : list bool) (k : nat) :
  StronglySorted lt (np_nonzero_from k mask).
Proof.
  revert k. induction mask as [|b t IH]; intros k; simpl.
  - constructor.
  - destruct b; [| apply IH].
    constructor; [apply IH |].
    rewrite Forall_forall. intros i Hi.
    apply np_nonzero_from_In in Hi. lia.
Qed.

Lemma filter_sorted {A : Type} (R : A -> A -> Prop) (p : A -> bool) (l : list A) :
  StronglySorted R l -> StronglySorted R (filter p l).
Proof.
  induction 1 as [|a l Hs IH Hall]; simpl; [constructor |].
  destruct (p a); [| exact IH].
  constructor; [exact IH |].
  rewrite Forall_forall in *. intros x Hx.
  apply filter_In in Hx. now apply Hall.
Qed.

Lemma nth_map_seq {A : Type} (f : nat -> A) (n i : nat) (d : A) :
  (i < n)%nat -> nth i (map f (seq 0 n)) d = f i.
Proof.
  intros Hi.
  rewrite (nth_indep _ d (f 0%nat)) by (rewrite length_map, length_seq; exact Hi).
  rewrite (map_nth f). now rewrite seq_nth.
Qed.

Lemma boolrelextrema_less_nth (data : list Q) (i : nat) :
  (i < length data)%nat ->
  nth i (boolrelextrema_less data) false =
  Qltb (np_take_clip data (Z.of_nat i)) (np_take_clip data (Z.of_nat i + 1)) &&
  Qltb (np_take_clip data (Z.of_nat i)) (np_take_clip data (Z.of_nat i - 1)).
Proof.
  intros Hi. unfold boolrelextrema_less.
  now rewrite nth_map_seq.
Qed.

Lemma np_take_clip_inside (data : list Q) (i : nat) :
  (i < length data)%nat -> np_take_clip data (Z.of_nat i) = nth i data 0.
Proof.
  intros Hi. unfold np_take_clip. f_equal. lia.
Qed.

(** The mask of [_boolrelextrema] is true exactly at the interior positions
    that lie strictly below both neighbours. *)
Lemma boolrelextrema_less_true (data : list Q) (i : nat) :
  (i < length data)%nat ->
  nth i (boolrelextrema_less data) false = true <->
  (0 < i < length data - 1)%nat /\
  nth i data 0 < nth (i - 1) data 0 /\ nth i data 0 < nth (i + 1) data 0.
Proof.
  intros Hi. rewrite (boolrelextrema_less_nth data i Hi).
  rewrite andb_true_iff, !Qltb_lt.
  rewrite (np_take_clip_inside data i Hi).
  destruct (Nat.eq_dec i 0) as [-> | Hi0].
  { replace (np_take_clip data (Z.of_nat 0 - 1)) with (nth 0 data 0)
      by (unfold np_take_clip; f_equal; lia).
    split; [intros [_ H]; exfalso; exact (Qlt_irrefl _ H) | lia]. }
  destruct (Nat.eq_dec i (length data - 1)) as [Hlast | Hlast].
  { replace (np_take_clip data (Z.of_nat i + 1)) with (nth i data 0)
      by (unfold np_take_clip; f_equal; lia).
    split; [intros [H _]; exfalso; exact (Qlt_irrefl _ H) | lia]. }
  replace (np_take_clip data (Z.of_nat i + 1)) with (nth (i + 1) data 0)
    by (unfold np_take_clip; f_equal; lia).
  replace (np_take_clip data (Z.of_nat i - 1)) with (nth (i - 1) data 0)
    by (unfold np_take_clip; f_equal; lia).
  split.
  - intros [Hp Hm]. split; [lia |]. split; assumption.
  - intros (_ & Hm & Hp). split; assumption.
Qed.

Lemma np_mean_nonempty (data : list Q) :
  data <> [] ->
  np_mean data = Finite (np_sum data / inject_Z (Z.of_nat (length data))).
Proof.
  intros Hne. unfold np_mean, np_divide.
  rewrite Qeq_bool_false; [reflexivity |].
  destruct data as [|x t]; [congruence |].
  unfold Qeq. simpl. lia.
Qed.

(** ** Moving average *)

Lemma fold_Qplus_acc (a : list Q) (acc : Q) :
  fold_left Qplus a acc == acc + np_sum a.
Proof.
  unfold np_sum. revert acc. induction a as [|x t IH]; intros acc; simpl.
  - ring.
  - rewrite (IH (acc + x)), (IH (0 + x)). ring.
Qed.

Lemma np_sum_cons (x : Q) (t : list Q) : np_sum (x :: t) == x + np_sum t.
Proof.
  unfold np_sum at 1. simpl. rewrite fold_Qplus_acc. ring.
Qed.

Lemma np_sum_app (a b : list Q) : np_sum (a ++ b) == np_sum a + np_sum b.
Proof.
  induction a as [|x t IH]; simpl.
  - unfold np_sum at 2. simpl. ring.
  - rewrite !np_sum_cons, IH. ring.
Qed.

Lemma firstn_plus {A : Type} (i n : nat) (l : list A) :
  firstn (i + n) l = firstn i l ++ firstn n (skipn i l).
Proof.
  revert l. induction i as [|i IH]; intros l; simpl; [reflexivity |].
  destruct l as [|x t]; simpl.
  - now rewrite firstn_nil.
  - now rewrite IH.
Qed.

Lemma nth_skipn_shift {A : Type} (k i : nat) (l : list A) (d : A) :
  nth i (skipn k l) d = nth (k + i) l d.
Proof.
  revert l. induction k as [|k IH]; intros l; simpl; [reflexivity |].
  destruct l as [|x t]; simpl; [now destruct i | apply IH].
Qed.

Lemma nth_firstn_below {A : Type} (k i : nat) (l : list A) (d : A) :
  (i < k)%nat -> nth i (firstn k l) d = nth i l d.
Proof.
  revert i l. induction k as [|k IH]; intros i l Hi; [lia |].
  destruct l as [|x t]; simpl; [reflexivity |].
  destruct i as [|i]; [reflexivity | apply IH; lia].
Qed.

Lemma nth_sub_combine (a b : list Q) (j : nat) :
  (j < length a)%nat -> (j < length b)%nat ->
  nth j (map (fun xy => fst xy - snd xy) (combine a b)) 0 = nth j a 0 - nth j b 0.
Proof.
  revert b j. induction a as [|x a IH]; intros b j Ha Hb; simpl in *; [lia |].
  destruct b as [|y b]; simpl in *; [lia |].
  destruct j as [|j]; [reflexivity | apply IH; lia].
Qed.

Lemma cumsum_from_length (data : list Q) (acc : Q) :
  length (cumsum_from acc data) = length data.
Proof.
  revert acc. induction data as [|x t IH]; intros acc; simpl; [reflexivity |].
  now rewrite IH.
Qed.

Lemma np_cumsum_length (data : list Q) : length (np_cumsum data) = length data.
Proof.
  destruct data as [|x t]; simpl; [reflexivity |].
  now rewrite cumsum_from_length.
Qed.

Lemma cumsum_from_nth (data : list Q) (acc : Q) (k : nat) :
  (k < length data)%nat ->
  nth k (cumsum_from acc data) 0 == acc + np_sum (firstn (S k) data).
Proof.
  revert acc k. induction data as [|x t IH]; intros acc k Hk; simpl in Hk; [lia |].
  destruct k as [|k].
  - simpl. rewrite np_sum_cons. unfold np_sum. simpl. ring.
  - change (nth (S k) (cumsum_from acc (x :: t)) 0)
      with (nth k (cumsum_from (acc + x) t) 0).
    rewrite IH by lia.
    change (firstn (S (S k)) (x :: t)) with (x :: firstn (S k) t).
    rewrite np_sum_cons. ring.
Qed.

(** Entry [k] of the cumulative sum is the sum of the first [k + 1] elements. *)
Lemma np_cumsum_nth (data : list Q) (k : nat) :
  (k < length data)%nat ->
  nth k (np_cumsum data) 0 == np_sum (firstn (S k) data).
Proof.
  destruct data as [|x t]; intros Hk; simpl in Hk; [lia |].
  destruct k as [|k].
  - simpl. rewrite np_sum_cons. unfold np_sum. simpl. ring.
  - change (nth (S k) (np_cumsum (x :: t)) 0) with (nth k (cumsum_from x t) 0).
    rewrite cumsum_from_nth by lia.
    change (firstn (S (S k)) (x :: t)) with (x :: firstn (S k) t).
    rewrite np_sum_cons. ring.
Qed.

(** With a window that fits, no step of [moving_average] raises. *)
Lemma moving_average_unfold (data : list Q) (n : nat) :
  (1 <= n <= length data)%nat ->
  let c := np_cumsum data in
  moving_average data n =
  Ok (map (fun x => x / inject_Z (Z.of_nat n))
          (skipn (n - 1)
             (firstn n c ++
              map (fun xy => fst xy - snd xy)
                  (combine (skipn n c) (firstn (length c - n) c))))).
Proof.
  intros Hn c. unfold moving_average. fold c.
  assert (Hc : length c = length data) by apply np_cumsum_length.
  destruct n as [|m]; [lia |].
  unfold slice_until_minus, np_subtract.
  assert (Hlen : length (skipn (S m) c) = length (firstn (length c - S m) c)).
  { rewrite length_skipn, length_firstn. lia. }
  rewrite (proj2 (Nat.eqb_eq _ _) Hlen). cbn [bind].
  unfold setitem_slice_from.
  assert (Hv : length (map (fun xy : Q * Q => fst xy - snd xy)
                       (combine (skipn (S m) c) (firstn (length c - S m) c))) =
               length (skipn (S m) c)).
  { rewrite length_map, length_combine, <- Hlen. apply Nat.min_id. }
  rewrite (proj2 (Nat.eqb_eq _ _) Hv). cbn [bind].
  unfold slice_from.
  replace (Z.of_nat (S m) - 1 <? 0)%Z with false by (symmetry; apply Z.ltb_ge; lia).
  replace (Z.to_nat (Z.of_nat (S m) - 1)) with (S m - 1)%nat by lia.
  reflexivity.
Qed.

(** The entries of the result on exact rationals, for a window that fits:
    there are [L - n + 1] of them, and without rounding entry [i] is the
    mean of the [n] elements from position [i] on.  The entries that
    binary64 gives are those of [Float64.moving_average]. *)
Lemma moving_average_entries (data : list Q) (n : nat) :
  (1 <= n <= length data)%nat ->
  exists out,
    moving_average data n = Ok out /\
    length out = (length data - n + 1)%nat /\
    forall i, (i < length data - n + 1)%nat ->
      nth i out 0 == np_sum (firstn n (skipn i data)) / inject_Z (Z.of_nat n).
Proof.
  intros Hn. pose proof (moving_average_unfold data n Hn) as Hunf.
  cbv zeta in Hunf. set (c := np_cumsum data) in *.
  assert (Hc : length c = length data) by apply np_cumsum_length.
  set (v := map (fun xy : Q * Q => fst xy - snd xy)
                (combine (skipn n c) (firstn (length c - n) c))) in *.
  assert (Hv : length v = (length data - n)%nat).
  { unfold v. rewrite length_map, length_combine, length_skipn, length_firstn. lia. }
  set (raw := skipn (n - 1) (firstn n c ++ v)) in *.
  assert (Hraw : length raw = (length data - n + 1)%nat).
  { unfold raw. rewrite length_skipn, length_app, length_firstn. lia. }
  eexists. split; [exact Hunf |]. split; [now rewrite length_map |].
  intros i Hi.
  rewrite (nth_indep _ 0 ((fun x => x / inject_Z (Z.of_nat n)) 0))
    by (rewrite length_map; lia).
  rewrite (map_nth (fun x => x / inject_Z (Z.of_nat n))).
  apply Qmult_comp; [| reflexivity].
  unfold raw. rewrite nth_skipn_shift.
  destruct i as [|j].
  - rewrite Nat.add_0_r.
    rewrite app_nth1 by (rewrite length_firstn; lia).
    rewrite nth_firstn_below by lia.
    unfold c. rewrite np_cumsum_nth by lia.
    replace (S (n - 1)) with n by lia. reflexivity.
  - rewrite app_nth2 by (rewrite length_firstn; lia).
    rewrite length_firstn.
    replace (n - 1 + S j - Nat.min n (length c))%nat with j by lia.
    unfold v. rewrite nth_sub_combine
      by (rewrite ?length_skipn, ?length_firstn; lia).
    rewrite nth_skipn_shift, nth_firstn_below by lia.
    unfold c. rewrite !np_cumsum_nth by lia.
    replace (S (n + j)) with (S j + n)%nat by lia.
    rewrite firstn_plus, np_sum_app. ring.
Qed.

(** C10: a window larger than the input gives the empty sequence and raises
    nothing; the length is [max (L - n + 1) 0 = 0]. *)
Theorem moving_average_window_too_large (data : list Q) (n : nat) :
  (length data < n)%nat ->
  exists out,
    moving_average data n = Ok out /\
    out = [] /\
    Z.of_nat (length out) = Z.max (Z.of_nat (length data) - Z.of_nat n + 1) 0.
Proof.
  intros Hn. exists []. split; [| split; [reflexivity | simpl; lia]].
  unfold moving_average. set (c := np_cumsum data).
  assert (Hc : length c = length data) by apply np_cumsum_length.
  destruct n as [|m]; [lia |].
  unfold slice_until_minus.
  rewrite (skipn_all2 c) by lia.
  replace (length c - S m)%nat with 0%nat by lia.
  simpl firstn. cbn [np_subtract length Nat.eqb bind].
  unfold setitem_slice_from.
  rewrite (skipn_all2 c) by lia.
  cbn [combine map length Nat.eqb bind]. unfold slice_from.
  replace (Z.of_nat (S m) - 1 <? 0)%Z with false by (symmetry; apply Z.ltb_ge; lia).
  rewrite skipn_all2; [reflexivity |].
  rewrite length_app, length_firstn. cbn [length]. lia.
Qed.

Lemma moving_average_window_too_large_witness :
  (length [1; 2; 3; 4; 5] < 7)%nat /\
  exists out,
    moving_average [1; 2; 3; 4; 5] 7 = Ok out /\
    out = [] /\
    Z.of_nat (length out) = Z.max (5 - 7 + 1) 0.
Proof.
  split; [simpl; lia |].
  apply (moving_average_window_too_large [1; 2; 3; 4; 5] 7). simpl. lia.
Defined.

(** ** Motif extraction *)

Lemma skipn_nth_cons {A : Type} (k : nat) (l : list A) (d : A) :
  (k < length l)%nat -> skipn k l = nth k l d :: skipn (S k) l.
Proof.
  revert l. induction k as [|k IH]; intros l Hk;
    destruct l as [|x t]; simpl in *; try lia; [reflexivity |].
  apply IH. lia.
Qed.

(** Inside the array the inspected slice starts with [data[i-1]]. *)
Lemma py_slice_head (data : list Q) (i : Z) :
  (0 < i - 4)%Z -> (i <= Z.of_nat (length data))%Z ->
  exists tl, py_slice data (i - 1) (i + 1) = nth (Z.to_nat (i - 1)) data 0 :: tl.
Proof.
  intros Hg Hi. unfold py_slice.
  replace (Z.to_nat (i + 1 - (i - 1))) with 2%nat by lia.
  rewrite (skipn_nth_cons (Z.to_nat (i - 1)) data 0) by lia.
  eexists. reflexivity.
Qed.

Lemma find_motif_loop_in_range (data : list Q) (threshold : Q) (minima : list Z)
    (pos_motif : list Q) (pos : list Z) :
  Forall (fun i => (0 < i - 4 -> i <= Z.of_nat (length data))%Z) minima ->
  let selected :=
    filter (fun i => (0 <? i - 4)%Z &&
                     forallb (fun x => Qltb x threshold) (py_slice data (i - 1) (i + 1)))
           minima in
  find_motif_loop data threshold minima pos_motif pos =
  Ok (pos_motif ++ map (fun i => nth (Z.to_nat (i - 1)) data 0) selected,
      pos ++ selected).
Proof.
  intros Hall. revert pos_motif pos.
  induction Hall as [|i rest Hi Hrest IH]; intros pos_motif pos; simpl.
  - now rewrite !app_nil_r.
  - destruct (0 <? i - 4)%Z eqn:Hg; simpl; [| apply IH].
    apply Z.ltb_lt in Hg.
    destruct (py_slice_head data i Hg (Hi Hg)) as [tl Hslice].
    destruct (forallb (fun x => Qltb x threshold) (py_slice data (i - 1) (i + 1)));
      [| apply IH].
    rewrite Hslice. rewrite IH. simpl. now rewrite <- !app_assoc.
Qed.

(** * Further properties of the code *)

(** ** The counter of a column *)

Lemma byte_eqb_eq (x y : byte) : Byte.eqb x y = true <-> x = y.
Proof.
  split; [apply Byte.byte_dec_bl | apply Byte.byte_dec_lb].
Qed.

Lemma byte_eqb_neq (x y : byte) : Byte.eqb x y = false <-> x <> y.
Proof.
  split; [apply Byte.eqb_false |].
  intros Hne. destruct (Byte.eqb x y) eqn:E; [| reflexivity].
  apply byte_eqb_eq in E. contradiction.
Qed.

Ltac byte_cases x y :=
  let E := fresh "E" in
  destruct (Byte.eqb x y) eqn:E;
  [apply byte_eqb_eq in E | apply byte_eqb_neq in E].

Lemma counter_get_incr (k k' : byte) (c : counter) :
  counter_get (counter_incr k c) k' =
  if Byte.eqb k' k then S (counter_get c k') else counter_get c k'.
Proof.
  induction c as [|[k0 v] t IH]; simpl.
  - destruct (Byte.eqb k' k); reflexivity.
  - byte_cases k k0; simpl.
    + subst k0. destruct (Byte.eqb k' k); reflexivity.
    + rewrite IH. byte_cases k' k0; [| reflexivity].
      subst k0. rewrite (proj2 (byte_eqb_neq k' k)) by congruence. reflexivity.
Qed.

Lemma counter_incr_keys (k k' : byte) (c : counter) :
  In k' (map fst (counter_incr k c)) -> k' = k \/ In k' (map fst c).
Proof.
  induction c as [|[k0 v] t IH]; simpl.
  - intros [H | []]. now left.
  - byte_cases k k0; simpl.
    + intros [H | H]; right; [now left | now right].
    + intros [H | H]; [right; now left |].
      destruct (IH H) as [Hk | Hk]; [now left | right; now right].
Qed.

Lemma counter_incr_NoDup (k : byte) (c : counter) :
  NoDup (map fst c) -> NoDup (map fst (counter_incr k c)).
Proof.
  induction c as [|[k0 v] t IH]; simpl; intros Hnd.
  - constructor; [intros [] | constructor].
  - inversion Hnd as [|? ? Hnotin Hnd']; subst.
    byte_cases k k0; simpl.
    + now constructor.
    + constructor; [| now apply IH].
      intros Hin. apply counter_incr_keys in Hin.
      destruct Hin as [Hin | Hin]; [congruence | contradiction].
Qed.

Lemma counter_incr_positive (k : byte) (c : counter) :
  Forall (fun kv => (1 <= snd kv)%nat) c ->
  Forall (fun kv => (1 <= snd kv)%nat) (counter_incr k c).
Proof.
  induction c as [|[k0 v] t IH]; simpl; intros Hall.
  - repeat constructor.
  - inversion Hall as [|? ? Hv Hall']; subst.
    destruct (Byte.eqb k k0).
    + constructor; [simpl; lia | exact Hall'].
    + constructor; [exact Hv | now apply IH].
Qed.

Lemma counter_incr_nonempty (k : byte) (c : counter) : counter_incr k c <> [].
Proof.
  destruct c as [|[k0 v] t]; simpl; [discriminate |].
  destruct (Byte.eqb k k0); discriminate.
Qed.

(** What the fold of [Counter] keeps, from any counter it starts with. *)
Lemma Counter_fold_invariant (array : list byte) (c : counter) :
  NoDup (map fst c) ->
  Forall (fun kv => (1 <= snd kv)%nat) c ->
  let c' := fold_left (fun c k => counter_incr k c) array c in
  NoDup (map fst c') /\
  Forall (fun kv => (1 <= snd kv)%nat) c' /\
  forall k, counter_get c' k = (counter_get c k + count_occ Byte.byte_eq_dec array k)%nat.
Proof.
  revert c. induction array as [|x t IH]; intros c Hnd Hpos; simpl.
  - repeat split; try assumption. intros k. lia.
  - destruct (IH (counter_incr x c) (counter_incr_NoDup x c Hnd)
                 (counter_incr_positive x c Hpos)) as (Hnd' & Hpos' & Hget).
    repeat split; try assumption.
    intros k. rewrite Hget, counter_get_incr.
    destruct (Byte.byte_eq_dec x k) as [-> | Hne].
    + rewrite (proj2 (byte_eqb_eq k k)) by reflexivity. lia.
    + rewrite (proj2 (byte_eqb_neq k x)) by congruence. lia.
Qed.

Lemma Counter_invariant (array : list byte) :
  NoDup (map fst (Counter array)) /\
  Forall (fun kv => (1 <= snd kv)%nat) (Counter array) /\
  forall k, counter_get (Counter array) k = count_occ Byte.byte_eq_dec array k.
Proof.
  destruct (Counter_fold_invariant array [] (NoDup_nil _) (Forall_nil _))
    as (Hnd & Hpos & Hget).
  split; [exact Hnd |]. split; [exact Hpos |].
  intros k. exact (Hget k).
Qed.

Lemma Counter_nonempty (array : list byte) : array <> [] -> Counter array <> [].
Proof.
  destruct array as [|x t]; [congruence |]. intros _.
  unfold Counter. simpl.
  assert (H : forall l c, c <> [] -> fold_left (fun c k => counter_incr k c) l c <> []).
  { induction l as [|y l IH]; intros c Hc; simpl; [exact Hc |].
    apply IH, counter_incr_nonempty. }
  apply H. discriminate.
Qed.

Lemma counter_get_of_In (c : counter) (k : byte) (v : nat) :
  NoDup (map fst c) -> In (k, v) c -> counter_get c k = v.
Proof.
  induction c as [|[k0 v0] t IH]; simpl; intros Hnd Hin; [contradiction |].
  inversion Hnd as [|? ? Hnotin Hnd']; subst.
  destruct Hin as [Heq | Hin].
  - injection Heq as -> ->. now rewrite (proj2 (byte_eqb_eq k k)).
  - byte_cases k k0.
    + subst k0. exfalso. apply Hnotin.
      change k with (fst (k, v)). now apply in_map.
    + now apply IH.
Qed.

(** ** The product and the score of a column *)

Lemma pA_fold_acc (c : counter) (acc : Q) :
  fold_left (fun pA kv => pA * count_over_5 (snd kv)) c acc ==
  acc * fold_right (fun kv p => count_over_5 (snd kv) * p) 1 c.
Proof.
  revert acc. induction c as [|kv t IH]; intros acc; simpl.
  - ring.
  - rewrite IH. ring.
Qed.

Lemma pA_loop_product (c : counter) :
  pA_loop c == fold_right (fun kv p => count_over_5 (snd kv) * p) 1 c.
Proof.
  unfold pA_loop. rewrite pA_fold_acc. ring.
Qed.

Lemma count_over_5_pos (v : nat) : (1 <= v)%nat -> 0 < count_over_5 v.
Proof.
  intros Hv. unfold count_over_5. apply Qlt_shift_div_l; [reflexivity |].
  rewrite Qmult_0_l. unfold Qlt. simpl. lia.
Qed.

Lemma count_over_5_le_1 (v : nat) : (v <= 5)%nat -> count_over_5 v <= 1.
Proof.
  intros Hv. unfold count_over_5. apply Qle_shift_div_r; [reflexivity |].
  unfold Qle. simpl. lia.
Qed.

Lemma pA_loop_pos (c : counter) :
  Forall (fun kv => (1 <= snd kv)%nat) c -> 0 < pA_loop c.
Proof.
  intros Hall. rewrite pA_loop_product.
  induction Hall as [|kv t Hv _ IH]; simpl; [reflexivity |].
  apply Qmult_lt_0_compat; [now apply count_over_5_pos | exact IH].
Qed.

Lemma pA_loop_le_1 (c : counter) :
  Forall (fun kv => (1 <= snd kv <= 5)%nat) c -> pA_loop c <= 1.
Proof.
  intros Hall. rewrite pA_loop_product.
  assert (H : 0 < fold_right (fun kv p => count_over_5 (snd kv) * p) 1 c /\
              fold_right (fun kv p => count_over_5 (snd kv) * p) 1 c <= 1).
  { induction Hall as [|kv t Hv _ IH]; simpl.
    - split; [reflexivity | apply Qle_refl].
    - destruct IH as [IH0 IH1].
      pose proof (count_over_5_pos (snd kv) (proj1 Hv)) as Hp.
      pose proof (count_over_5_le_1 (snd kv) (proj2 Hv)) as Hq.
      split; [now apply Qmult_lt_0_compat |].
      set (x := count_over_5 (snd kv)) in *.
      set (y := fold_right (fun kv0 p => count_over_5 (snd kv0) * p) 1 t) in *.
      nra. }
  exact (proj2 H).
Qed.

Lemma column_pA_nonempty (array : list byte) :
  array <> [] -> column_pA array = Ok (pA_loop (Counter array)).
Proof.
  intros Hne. unfold column_pA.
  pose proof (Counter_nonempty array Hne) as Hc.
  destruct (Counter array) as [|kv t]; [congruence | reflexivity].
Qed.

Lemma neg_plog2_Qeq (p q : Q) : p == q -> neg_plog2 p = neg_plog2 q.
Proof.
  intros H. unfold neg_plog2. now rewrite (Qeq_eqR _ _ H).
Qed.

Lemma log2_pos (x : R) : (1 < x)%R -> (0 < log2 x)%R.
Proof.
  intros Hx. unfold log2, Rdiv.
  assert (Hln : (0 < ln x)%R) by (rewrite <- ln_1; apply ln_increasing; Lra.lra).
  assert (Hinv : (0 < / ln 2)%R) by (apply Rinv_0_lt_compat, ln_2_pos).
  Lra.nra.
Qed.

Lemma neg_plog2_neg (p : Q) : 1 < p -> (neg_plog2 p < 0)%R.
Proof.
  intros H1. unfold neg_plog2. apply Qlt_Rlt in H1.
  replace (Q2R 1) with 1%R in H1 by (unfold Q2R; simpl; Lra.lra).
  assert (Hl : (0 < log2 (Q2R p))%R) by (apply log2_pos; Lra.lra).
  Lra.nra.
Qed.

Lemma neg_plog2_nonneg (p : Q) : 0 < p -> p <= 1 -> (0 <= neg_plog2 p)%R.
Proof.
  intros H0 H1. destruct (Qlt_le_dec p 1) as [Hlt | Hge].
  - left. now apply neg_plog2_pos.
  - right. symmetry. apply neg_plog2_one. now apply Qle_antisym.
Qed.

(** X1: on every non-empty column [_shannon] returns a score; the product
    whose logarithm it takes is strictly positive, so the logarithm is
    never taken of 0. *)
Theorem shannon_returns_on_nonempty_column (array : list byte) :
  array <> [] ->
  exists pA,
    column_pA array = Ok pA /\ 0 < pA /\ _shannon array = Ok (neg_plog2 pA).
Proof.
  intros Hne. exists (pA_loop (Counter array)).
  pose proof (column_pA_nonempty array Hne) as Hp.
  split; [exact Hp |]. split.
  - apply pA_loop_pos. apply (Counter_invariant array).
  - unfold _shannon. now rewrite Hp.
Qed.

Lemma shannon_returns_on_nonempty_column_witness :
  [sym_A; x54; sym_A] <> [] /\
  exists pA,
    column_pA [sym_A; x54; sym_A] = Ok pA /\ 0 < pA /\
    _shannon [sym_A; x54; sym_A] = Ok (neg_plog2 pA).
Proof.
  assert (H : [sym_A; x54; sym_A] <> []) by discriminate.
  split; [exact H |].
  apply (shannon_returns_on_nonempty_column [sym_A; x54; sym_A] H).
Defined.

(** X3: a column that holds one symbol in all of its [N >= 1] rows scores
    [-(N/5)*log2(N/5)]: positive below five rows, 0 at exactly five rows and
    negative above five. *)
Theorem shannon_uniform_column_sign (a : byte) (N : nat) :
  (1 <= N)%nat ->
  exists s,
    _shannon (repeat a N) = Ok s /\
    s = neg_plog2 (inject_Z (Z.of_nat N) / 5) /\
    ((N < 5)%nat -> (0 < s)%R) /\
    (N = 5%nat -> s = 0%R) /\
    ((5 < N)%nat -> (s < 0)%R).
Proof.
  intros HN. destruct N as [|M]; [lia |].
  exists (neg_plog2 (inject_Z (Z.of_nat (S M)) / 5)).
  assert (Hq : 1 * count_over_5 (S M) == inject_Z (Z.of_nat (S M)) / 5)
    by (unfold count_over_5; ring).
  split; [| split; [reflexivity |]].
  - unfold _shannon. rewrite column_pA_uniform. cbn [bind].
    apply f_equal, neg_plog2_Qeq, Hq.
  - repeat split.
    + intros Hlt. apply neg_plog2_pos.
      * apply Qlt_shift_div_l; [reflexivity |]. unfold Qlt. simpl. lia.
      * apply Qlt_shift_div_r; [reflexivity |]. unfold Qlt. simpl. lia.
    + intros Heq. apply neg_plog2_one. rewrite Heq. reflexivity.
    + intros Hgt. apply neg_plog2_neg.
      apply Qlt_shift_div_l; [reflexivity |]. unfold Qlt. simpl. lia.
Qed.

Lemma shannon_uniform_column_sign_witness :
  (1 <= 10)%nat /\
  exists s,
    _shannon (repeat sym_A 10) = Ok s /\
    s = neg_plog2 (inject_Z (Z.of_nat 10) / 5) /\
    ((10 < 5)%nat -> (0 < s)%R) /\
    (10%nat = 5%nat -> s = 0%R) /\
    ((5 < 10)%nat -> (s < 0)%R).
Proof.
  assert (H : (1 <= 10)%nat) by lia.
  split; [exact H |].
  apply (shannon_uniform_column_sign sym_A 10 H).
Defined.

(** X4: in an alignment of at most five sequences no column scores below
    0. *)
Theorem shannon_nonnegative_up_to_five_rows (array : list byte) :
  array <> [] -> (length array <= 5)%nat ->
  exists s, _shannon array = Ok s /\ (0 <= s)%R.
Proof.
  intros Hne Hlen. exists (neg_plog2 (pA_loop (Counter array))). split.
  - unfold _shannon. now rewrite (column_pA_nonempty array Hne).
  - destruct (Counter_invariant array) as (Hnd & Hpos & Hget).
    apply neg_plog2_nonneg; [now apply pA_loop_pos |].
    apply pA_loop_le_1. rewrite Forall_forall in *. intros [k v] Hin.
    specialize (Hpos _ Hin). simpl in *. split; [exact Hpos |].
    rewrite <- (counter_get_of_In _ _ _ Hnd Hin), Hget.
    eapply Nat.le_trans; [apply count_occ_bound | exact Hlen].
Qed.

Lemma shannon_nonnegative_up_to_five_rows_witness :
  [sym_A; x54; sym_A] <> [] /\ (length [sym_A; x54; sym_A] <= 5)%nat /\
  exists s, _shannon [sym_A; x54; sym_A] = Ok s /\ (0 <= s)%R.
Proof.
  assert (H : [sym_A; x54; sym_A] <> []) by discriminate.
  assert (H' : (length [sym_A; x54; sym_A] <= 5)%nat) by (simpl; lia).
  split; [exact H |]. split; [exact H' |].
  apply (shannon_nonnegative_up_to_five_rows _ H H').
Defined.

(** ** The scores of an alignment *)

Lemma mapM_pointwise {A B : Type} (f : A -> result B) (g : A -> B) (l : list A) :
  (forall a, In a l -> f a = Ok (g a)) -> mapM f l = Ok (map g l).
Proof.
  induction l as [|a t IH]; intros H; simpl; [reflexivity |].
  rewrite (H a) by now left. cbn [bind].
  rewrite IH by (intros b Hb; apply H; now right). reflexivity.
Qed.

Lemma column_nonempty (j : nat) (np_seq : list (list byte)) :
  np_seq <> [] -> column j np_seq <> [].
Proof.
  destruct np_seq; [congruence | discriminate].
Qed.

Lemma conservation_score_rectangular (np_seq : list (list byte)) (L : nat) :
  np_seq <> [] -> Forall (fun row => length row = L) np_seq ->
  conservation_score np_seq =
  match L with
  | O => Raise ValueError
  | S _ => mapM _shannon (columns L np_seq)
  end.
Proof.
  intros Hne Hrect. destruct np_seq as [|row rest]; [congruence |].
  inversion Hrect as [|? ? Hrow _]; subst. reflexivity.
Qed.

(** X5: on an alignment of [N >= 1] sequences that all have the length [L],
    the scoring raises [ValueError] when [L = 0]; otherwise it returns
    exactly [L] scores, and score [j] is computed from column [j] alone. *)
Theorem conservation_score_one_score_per_column (np_seq : list (list byte)) (L : nat) :
  np_seq <> [] -> Forall (fun row => length row = L) np_seq ->
  (L = 0%nat -> conservation_score np_seq = Raise ValueError) /\
  ((1 <= L)%nat ->
   exists out,
     conservation_score np_seq = Ok out /\
     length out = L /\
     forall j, (j < L)%nat ->
       nth j out 0%R = neg_plog2 (pA_loop (Counter (column j np_seq)))).
Proof.
  intros Hne Hrect.
  rewrite (conservation_score_rectangular np_seq L Hne Hrect).
  split; [now intros -> |].
  intros HL. destruct L as [|M]; [lia |].
  exists (map (fun col => neg_plog2 (pA_loop (Counter col))) (columns (S M) np_seq)).
  split; [| split].
  - apply mapM_pointwise. intros col Hcol.
    unfold columns in Hcol. apply in_map_iff in Hcol.
    destruct Hcol as (j & <- & _).
    unfold _shannon.
    now rewrite (column_pA_nonempty _ (column_nonempty j np_seq Hne)).
  - unfold columns. now rewrite !length_map, length_seq.
  - intros j Hj. unfold columns. rewrite map_map.
    now rewrite nth_map_seq.
Qed.

Lemma conservation_score_one_score_per_column_witness :
  three_AAAA <> [] /\ Forall (fun row => length row = 4%nat) three_AAAA /\
  exists out,
    conservation_score three_AAAA = Ok out /\
    length out = 4%nat /\
    forall j, (j < 4)%nat ->
      nth j out 0%R = neg_plog2 (pA_loop (Counter (column j three_AAAA))).
Proof.
  assert (H : three_AAAA <> []) by discriminate.
  assert (H' : Forall (fun row => length row = 4%nat) three_AAAA)
    by (repeat constructor).
  split; [exact H |]. split; [exact H' |].
  apply (proj2 (conservation_score_one_score_per_column three_AAAA 4 H H')). lia.
Defined.

(** ** More on the moving average *)

Lemma moving_average_oversized (data : list Q) (n : nat) :
  (length data < n)%nat -> moving_average data n = Ok [].
Proof.
  intros Hn. unfold moving_average. set (c := np_cumsum data).
  assert (Hc : length c = length data) by apply np_cumsum_length.
  destruct n as [|m]; [lia |].
  unfold slice_until_minus.
  rewrite (skipn_all2 c) by lia.
  replace (length c - S m)%nat with 0%nat by lia.
  simpl firstn. cbn [np_subtract length Nat.eqb bind].
  unfold setitem_slice_from.
  rewrite (skipn_all2 c) by lia.
  cbn [combine map length Nat.eqb bind]. unfold slice_from.
  replace (Z.of_nat (S m) - 1 <? 0)%Z with false by (symmetry; apply Z.ltb_ge; lia).
  rewrite skipn_all2; [reflexivity |].
  rewrite length_app, length_firstn. cbn [length]. lia.
Qed.

Lemma moving_average_window_0 (data : list Q) :
  data <> [] -> moving_average data 0 = Raise ValueError.
Proof.
  intros Hne. unfold moving_average.
  pose proof (np_cumsum_length data) as Hc.
  destruct (np_cumsum data) as [|x [|y t]] eqn:E.
  - destruct data; [congruence | discriminate].
  - reflexivity.
  - reflexivity.
Qed.

(** X10: the moving average raises exactly when the window is 0 and the
    input is not empty ([ValueError], the two slices cannot be subtracted).
    With the window 0 an empty input gives the empty sequence; with a window
    [n >= 1] every input of length [L] gives [max (L + 1 - n) 0] values. *)
Theorem moving_average_raises_only_on_window_0 (data : list Q) (n : nat) :
  (n = 0%nat -> data <> [] -> moving_average data n = Raise ValueError) /\
  (n = 0%nat -> data = [] -> moving_average data n = Ok []) /\
  ((1 <= n)%nat ->
   exists out,
     moving_average data n = Ok out /\ length out = (length data + 1 - n)%nat).
Proof.
  split; [| split].
  - intros -> Hne. now apply moving_average_window_0.
  - intros -> ->. reflexivity.
  - intros Hn. destruct (le_lt_dec n (length data)) as [Hle | Hgt].
    + destruct (moving_average_entries data n (conj Hn Hle)) as (out & Hout & Hlen & _).
      exists out. split; [exact Hout | lia].
    + exists []. split; [now apply moving_average_oversized | simpl; lia].
Qed.

Lemma moving_average_raises_only_on_window_0_witness :
  moving_average [1; 2] 0 = Raise ValueError /\
  exists out,
    moving_average [1; 2; 3; 4] 3 = Ok out /\ length out = (4 + 1 - 3)%nat.
Proof.
  split.
  - apply (proj1 (moving_average_raises_only_on_window_0 [1; 2] 0));
      [reflexivity | discriminate].
  - apply (proj2 (proj2 (moving_average_raises_only_on_window_0 [1; 2; 3; 4] 3))).
    lia.
Defined.

(** ** More on the minima and the motifs *)

Lemma find_local_minima_In (data : list Q) (i : nat) :
  In i (find_local_minima data) <->
  (0 < i < length data - 1)%nat /\
  nth i data 0 < nth (i - 1) data 0 /\
  nth i data 0 < nth (i + 1) data 0 /\
  nth i data 0 < np_sum data / inject_Z (Z.of_nat (length data)).
Proof.
  rewrite find_local_minima_filter, filter_In.
  unfold np_nonzero. rewrite np_nonzero_from_In.
  replace (length (boolrelextrema_less data)) with (length data)
    by (unfold boolrelextrema_less; now rewrite length_map, length_seq).
  rewrite Nat.sub_0_r. split.
  - intros [[Hr Hmask] Hmean].
    assert (Hi : (i < length data)%nat) by lia.
    apply (boolrelextrema_less_true data i Hi) in Hmask.
    destruct Hmask as (Hin & Hm & Hp).
    rewrite np_mean_nonempty in Hmean by (destruct data; simpl in *; [lia | discriminate]).
    simpl in Hmean. apply Qltb_lt in Hmean. auto.
  - intros (Hin & Hm & Hp & Hmean).
    assert (Hi : (i < length data)%nat) by lia.
    split; [split; [lia |] |].
    + apply (boolrelextrema_less_true data i Hi). auto.
    + rewrite np_mean_nonempty by (destruct data; simpl in *; [lia | discriminate]).
      simpl. now apply Qltb_lt.
Qed.

Lemma find_local_minima_sorted (data : list Q) :
  StronglySorted lt (find_local_minima data).
Proof.
  rewrite find_local_minima_filter.
  apply filter_sorted, np_nonzero_from_sorted.
Qed.

(** X12: a sequence of fewer than three values has no local minimum, and
    no two reported minima are neighbours: next to a reported index [i], the
    index [i + 1] is never reported. *)
Theorem find_local_minima_isolated (data : list Q) :
  ((length data < 3)%nat -> find_local_minima data = []) /\
  (forall i, In i (find_local_minima data) -> ~ In (S i) (find_local_minima data)).
Proof.
  split.
  - intros Hlen. destruct (find_local_minima data) as [|i t] eqn:E; [reflexivity |].
    assert (Hin : In i (find_local_minima data)) by (rewrite E; now left).
    apply find_local_minima_In in Hin. lia.
  - intros i Hi Hsi.
    apply find_local_minima_In in Hi. apply find_local_minima_In in Hsi.
    destruct Hi as (_ & _ & Hup & _). destruct Hsi as (_ & Hdown & _).
    replace (S i - 1)%nat with i in Hdown by lia.
    replace (i + 1)%nat with (S i) in Hup by lia.
    exact (Qlt_irrefl _ (Qlt_trans _ _ _ Hup Hdown)).
Qed.

Lemma find_local_minima_isolated_witness :
  In 3%nat (find_local_minima [3; 1; 2; 0; 5; 5; 4; 6; 9]) /\
  ~ In 4%nat (find_local_minima [3; 1; 2; 0; 5; 5; 4; 6; 9]).
Proof.
  assert (H : In 3%nat (find_local_minima [3; 1; 2; 0; 5; 5; 4; 6; 9]))
    by (simpl; auto).
  split; [exact H |].
  apply (proj2 (find_local_minima_isolated [3; 1; 2; 0; 5; 5; 4; 6; 9]) 3%nat H).
Defined.

Lemma py_slice_past_end (data : list Q) (i : Z) :
  (0 < i - 4)%Z -> (Z.of_nat (length data) < i)%Z ->
  py_slice data (i - 1) (i + 1) = [].
Proof.
  intros Hg Hi. unfold py_slice.
  rewrite skipn_all2 by lia. apply firstn_nil.
Qed.

Lemma find_motif_loop_past_end (data : list Q) (threshold : Q) (minima : list Z)
    (pos_motif : list Q) (pos : list Z) :
  Exists (fun i => (0 < i - 4 /\ Z.of_nat (length data) < i)%Z) minima ->
  find_motif_loop data threshold minima pos_motif pos = Raise IndexError.
Proof.
  intros Hex. revert pos_motif pos.
  induction minima as [|i rest IH]; intros pos_motif pos; [inversion Hex |].
  simpl.
  destruct (Z_lt_dec 0 (i - 4)) as [Hg | Hg].
  - rewrite (proj2 (Z.ltb_lt _ _) Hg).
    destruct (Z_lt_dec (Z.of_nat (length data)) i) as [Hbad | Hgood].
    + now rewrite (py_slice_past_end data i Hg Hbad).
    + assert (Hrest : Exists (fun i => (0 < i - 4 /\ Z.of_nat (length data) < i)%Z) rest).
      { inversion Hex as [? ? [_ H] | ? ? H]; subst; [lia | exact H]. }
      destruct (py_slice_head data i Hg ltac:(lia)) as [tl Hslice].
      destruct (forallb (fun x => Qltb x threshold) (py_slice data (i - 1) (i + 1)));
        [| now apply IH].
      rewrite Hslice. now apply IH.
  - rewrite (proj2 (Z.ltb_ge _ _)) by lia.
    apply IH. inversion Hex as [? ? [H _] | ? ? H]; subst; [lia | exact H].
Qed.

Lemma past_end_dec (data : list Q) (minima : list Z) :
  Exists (fun i => (0 < i - 4 /\ Z.of_nat (length data) < i)%Z) minima \/
  Forall (fun i => (0 < i - 4 -> i <= Z.of_nat (length data))%Z) minima.
Proof.
  induction minima as [|i rest [IH | IH]].
  - right. constructor.
  - left. now right.
  - destruct (Z_lt_dec 0 (i - 4)) as [Hg | Hg];
      [destruct (Z_lt_dec (Z.of_nat (length data)) i) as [Hbad | Hgood] |].
    + left. left. now split.
    + right. constructor; [lia | exact IH].
    + right. constructor; [lia | exact IH].
Qed.

(** X13: motif extraction raises exactly when some minimum [i] with
    [i - 4 > 0] lies beyond the length of the score sequence, whatever the
    threshold and the other minima are, and the exception is then
    [IndexError]. *)
Theorem find_motif_raises_iff_past_end (data : list Q) (minima : list Z) (threshold : Q) :
  (forall e, find_motif data minima threshold = Raise e -> e = IndexError) /\
  (find_motif data minima threshold = Raise IndexError <->
   Exists (fun i => (0 < i - 4 /\ Z.of_nat (length data) < i)%Z) minima).
Proof.
  unfold find_motif.
  destruct (past_end_dec data minima) as [Hex | Hall].
  - rewrite (find_motif_loop_past_end data threshold minima [] [] Hex).
    split; [intros e H; now injection H as <- | tauto].
  - rewrite (find_motif_loop_in_range data threshold minima [] [] Hall).
    split; [intros e H; discriminate H |].
    split; [intros H; discriminate H |].
    intros Hex. exfalso.
    rewrite Exists_exists in Hex. destruct Hex as (i & Hin & Hg & Hbad).
    rewrite Forall_forall in Hall. specialize (Hall i Hin Hg). lia.
Qed.

Lemma find_motif_raises_iff_past_end_witness :
  Exists (fun i => (0 < i - 4 /\ Z.of_nat (length [0; 0; 0; 0; 0; 0]) < i)%Z) [5; 9]%Z /\
  find_motif [0; 0; 0; 0; 0; 0] [5; 9]%Z 1 = Raise IndexError.
Proof.
  assert (H : Exists (fun i => (0 < i - 4 /\ Z.of_nat (length [0; 0; 0; 0; 0; 0]) < i)%Z)
                     [5; 9]%Z).
  { right. left. simpl. lia. }
  split; [exact H |].
  apply (proj2 (proj2 (find_motif_raises_iff_past_end [0; 0; 0; 0; 0; 0] [5; 9]%Z 1)) H).
Defined.

(** X14: whenever motif extraction returns, its two lists have the same
    length, the positions are the minima that passed the two tests, in their
    order, the value recorded for a position [i] is [data[i-1]], and every
    recorded value is strictly below the threshold. *)
Theorem find_motif_result_invariant (data : list Q) (minima : list Z) (threshold : Q)
    (pos_motif : list Q) (pos : list Z) :
  find_motif data minima threshold = Ok (pos_motif, pos) ->
  length pos_motif = length pos /\
  pos = filter (fun i => (0 <? i - 4)%Z &&
                         forallb (fun x => Qltb x threshold) (py_slice data (i - 1) (i + 1)))
               minima /\
  pos_motif = map (fun i => nth (Z.to_nat (i - 1)) data 0) pos /\
  Forall (fun v => v < threshold) pos_motif.
Proof.
  intros Hok. unfold find_motif in Hok.
  destruct (past_end_dec data minima) as [Hex | Hall].
  - rewrite (find_motif_loop_past_end data threshold minima [] [] Hex) in Hok.
    discriminate Hok.
  - pose proof Hall as Hall'.
    rewrite (find_motif_loop_in_range data threshold minima [] [] Hall) in Hok.
    simpl in Hok. injection Hok as Hpm Hps.
    subst pos. split; [subst pos_motif; now rewrite length_map |].
    split; [reflexivity |]. split; [now subst pos_motif |].
    subst pos_motif. rewrite Forall_forall. intros v Hv.
    apply in_map_iff in Hv. destruct Hv as (i & <- & Hi).
    apply filter_In in Hi. destruct Hi as [Hin Hsel].
    apply andb_true_iff in Hsel. destruct Hsel as [Hg Hbelow].
    apply Z.ltb_lt in Hg.
    rewrite Forall_forall in Hall'.
    destruct (py_slice_head data i Hg (Hall' i Hin Hg)) as [tl Hslice].
    rewrite Hslice in Hbelow. simpl in Hbelow.
    apply andb_true_iff in Hbelow. now apply Qltb_lt.
Qed.

Lemma find_motif_result_invariant_witness :
  find_motif [0; 0; 0; 0; 0; 1; 0; 9; 0; 0] [5; 6; 3; 8; 9]%Z 4 =
    Ok ([0; 1; 0], [5; 6; 9]%Z) /\
  length [0; 1; 0] = length [5; 6; 9]%Z /\
  Forall (fun v => v < 4) [0; 1; 0].
Proof.
  assert (H : find_motif [0; 0; 0; 0; 0; 1; 0; 9; 0; 0] [5; 6; 3; 8; 9]%Z 4 =
              Ok ([0; 1; 0], [5; 6; 9]%Z)) by reflexivity.
  split; [exact H |].
  pose proof (find_motif_result_invariant _ _ _ _ _ H) as (Hlen & _ & _ & Hbelow).
  split; [exact Hlen | exact Hbelow].
Defined.

(** ** The stages composed *)

Lemma py_slice_pair (data : list Q) (i : Z) :
  (0 < i - 4)%Z -> (i < Z.of_nat (length data))%Z ->
  py_slice data (i - 1) (i + 1) =
  [nth (Z.to_nat (i - 1)) data 0; nth (Z.to_nat i) data 0].
Proof.
  intros Hg Hi. unfold py_slice.
  replace (Z.to_nat (i + 1 - (i - 1))) with 2%nat by lia.
  rewrite (skipn_nth_cons (Z.to_nat (i - 1)) data 0) by lia.
  rewrite (skipn_nth_cons (S (Z.to_nat (i - 1))) data 0) by lia.
  replace (S (Z.to_nat (i - 1))) with (Z.to_nat i) by lia.
  reflexivity.
Qed.

Lemma local_minima_in_range (data : list Q) (i : Z) :
  In i (map Z.of_nat (find_local_minima data)) ->
  (0 < i < Z.of_nat (length data) - 1)%Z.
Proof.
  intros Hin. apply in_map_iff in Hin. destruct Hin as (j & <- & Hj).
  apply find_local_minima_In in Hj. lia.
Qed.

Lemma local_minima_Forall_in_range (data : list Q) :
  Forall (fun i => (0 < i - 4 -> i <= Z.of_nat (length data))%Z)
         (map Z.of_nat (find_local_minima data)).
Proof.
  rewrite Forall_forall. intros i Hin _.
  apply local_minima_in_range in Hin. lia.
Qed.

Lemma map_of_nat_sorted (l : list nat) :
  StronglySorted lt l -> StronglySorted Z.lt (map Z.of_nat l).
Proof.
  induction 1 as [|a l _ IH Hall]; simpl; constructor; [exact IH |].
  rewrite Forall_forall in *. intros z Hz.
  apply in_map_iff in Hz. destruct Hz as (b & <- & Hb).
  specialize (Hall b Hb). lia.
Qed.

Lemma find_motif_after_find_local_minima (data : list Q) (threshold : Q) :
  let minima := map Z.of_nat (find_local_minima data) in
  let kept :=
    filter (fun i => (4 <? i)%Z &&
                     Qltb (nth (Z.to_nat (i - 1)) data 0) threshold &&
                     Qltb (nth (Z.to_nat i) data 0) threshold)
           minima in
  find_motif data minima threshold =
    Ok (map (fun i => nth (Z.to_nat (i - 1)) data 0) kept, kept) /\
  StronglySorted Z.lt kept /\
  Forall (fun i => (4 < i < Z.of_nat (length data) - 1)%Z) kept.
Proof.
  intros minima kept.
  assert (Hkept : kept =
    filter (fun i => (0 <? i - 4)%Z &&
                     forallb (fun x => Qltb x threshold) (py_slice data (i - 1) (i + 1)))
           minima).
  { subst kept. apply filter_ext_in. intros i Hin.
    apply local_minima_in_range in Hin.
    destruct (Z_lt_dec 4 i) as [Hg | Hg].
    - rewrite (proj2 (Z.ltb_lt 4 i) Hg), (proj2 (Z.ltb_lt 0 (i - 4))) by lia.
      rewrite py_slice_pair by lia. simpl. now rewrite andb_true_r.
    - rewrite (proj2 (Z.ltb_ge 4 i)), (proj2 (Z.ltb_ge 0 (i - 4))) by lia.
      reflexivity. }
  split; [| split].
  - unfold find_motif.
    rewrite (find_motif_loop_in_range data threshold minima [] []
               (local_minima_Forall_in_range data)).
    simpl. now rewrite <- Hkept.
  - subst kept. apply filter_sorted. subst minima.
    apply map_of_nat_sorted, find_local_minima_sorted.
  - subst kept. rewrite Forall_forall. intros i Hi.
    apply filter_In in Hi. destruct Hi as [Hin Hsel].
    apply local_minima_in_range in Hin.
    rewrite !andb_true_iff in Hsel. destruct Hsel as [[Hg _] _].
    apply Z.ltb_lt in Hg. lia.
Qed.

(** X15: run on the minima that [find_local_minima] reports for the same
    sequence, motif extraction never raises.  It keeps the minima [i > 4]
    with [data[i-1]] and [data[i]] below the threshold; the positions it
    returns are strictly increasing and lie in the interior of the
    sequence. *)
Theorem find_motif_on_local_minima (data : list Q) (threshold : Q) :
  let minima := map Z.of_nat (find_local_minima data) in
  let kept :=
    filter (fun i => (4 <? i)%Z &&
                     Qltb (nth (Z.to_nat (i - 1)) data 0) threshold &&
                     Qltb (nth (Z.to_nat i) data 0) threshold)
           minima in
  find_motif data minima threshold =
    Ok (map (fun i => nth (Z.to_nat (i - 1)) data 0) kept, kept) /\
  StronglySorted Z.lt kept /\
  Forall (fun i => (4 < i < Z.of_nat (length data) - 1)%Z) kept.
Proof.
  exact (find_motif_after_find_local_minima data threshold).
Qed.

(** ** The format tag and the script *)

(** X17: the format tag of [seq_extract] is normalized once and for all:
    the result is never one of the aliases [sth] and [aln], normalizing it
    again changes nothing, and a tag that is not an alias is passed on as it
    is. *)
Theorem seq_extract_format_canonical (file_ext : String.string) :
  seq_extract_format file_ext <> "sth"%string /\
  seq_extract_format file_ext <> "aln"%string /\
  seq_extract_format (seq_extract_format file_ext) = seq_extract_format file_ext /\
  (file_ext <> "sth"%string -> file_ext <> "aln"%string ->
   seq_extract_format file_ext = file_ext).
Proof.
  unfold seq_extract_format.
  destruct (String.eqb_spec file_ext "sth"%string) as [-> | Hsth].
  - simpl. repeat split; try discriminate. intros H. now elim H.
  - destruct (String.eqb_spec file_ext "aln"%string) as [-> | Haln].
    + simpl. repeat split; try discriminate. intros _ H. now elim H.
    + destruct (String.eqb_spec file_ext "clustal"%string) as [-> | Hcl].
      * simpl. repeat split; discriminate.
      * simpl.
        rewrite (proj2 (String.eqb_neq _ _) Hsth), (proj2 (String.eqb_neq _ _) Haln),
                (proj2 (String.eqb_neq _ _) Hcl).
        simpl. repeat split; assumption.
Qed.

Lemma seq_extract_format_canonical_witness :
  "fasta"%string <> "sth"%string /\ "fasta"%string <> "aln"%string /\
  seq_extract_format "fasta"%string = "fasta"%string.
Proof.
  assert (H1 : "fasta"%string <> "sth"%string) by discriminate.
  assert (H2 : "fasta"%string <> "aln"%string) by discriminate.
  split; [exact H1 |]. split; [exact H2 |].
  apply (proj2 (proj2 (proj2 (seq_extract_format_canonical "fasta"%string))) H1 H2).
Defined.

Lemma py_str_int_inj (p q : Z) : py_str_int p = py_str_int q -> p = q.
Proof.
  unfold py_str_int. intros H.
  assert (Hparse : forall z, NilZero.int_of_string (NilZero.string_of_int (Z.to_int z)) =
                             Some (Z.to_int z)).
  { intros z. apply NilZero.isi; destruct z; simpl; intros E;
      try discriminate E; injection E as E;
      exact (DecimalPos.Unsigned.to_uint_nonnil _ E). }
  pose proof (Hparse p) as Hp. rewrite H, Hparse in Hp.
  injection Hp as Hp.
  rewrite <- (DecimalZ.of_to p), <- (DecimalZ.of_to q). now rewrite Hp.
Qed.

Lemma mot_name_inj (p q : Z) : mot_name p = mot_name q -> p = q.
Proof.
  unfold mot_name. simpl. intros H. injection H as H.
  now apply py_str_int_inj.
Qed.

Lemma sorted_Zlt_NoDup (l : list Z) : StronglySorted Z.lt l -> NoDup l.
Proof.
  induction 1 as [|a l _ IH Hall]; constructor; [| exact IH].
  intros Hin. rewrite Forall_forall in Hall. specialize (Hall a Hin). lia.
Qed.

Lemma NoDup_map_injective {A B : Type} (f : A -> B) (l : list A) :
  (forall x y, f x = f y -> x = y) -> NoDup l -> NoDup (map f l).
Proof.
  intros Hinj. induction 1 as [|a l Hnotin _ IH]; simpl; constructor; [| exact IH].
  intros Hin. apply in_map_iff in Hin. destruct Hin as (b & Hb & Hin).
  apply Hinj in Hb. now subst b.
Qed.

(** X18: the script names the selection of the motif at position [p]
    [mot{p}]; two positions get the same name only if they are equal.  The
    positions that motif extraction returns for the local minima of a
    sequence are distinct, so the script creates one selection for each of
    them and none overwrites another. *)
Theorem pymol_selection_names_distinct :
  (forall p q : Z, mot_name p = mot_name q -> p = q) /\
  (forall (data : list Q) (threshold : Q) (pos_motif : list Q) (pos : list Z),
      find_motif data (map Z.of_nat (find_local_minima data)) threshold =
        Ok (pos_motif, pos) ->
      NoDup (map mot_name pos)).
Proof.
  split; [exact mot_name_inj |].
  intros data threshold pos_motif pos Hok.
  destruct (find_motif_after_find_local_minima data threshold) as (Heq & Hsorted & _).
  cbv zeta in Heq. rewrite Heq in Hok. injection Hok as _ <-.
  apply NoDup_map_injective; [exact mot_name_inj |].
  apply sorted_Zlt_NoDup, Hsorted.
Qed.

Lemma pymol_selection_names_distinct_witness :
  find_motif [5; 4; 5; 4; 5; 4; 5; 0; 5]
             (map Z.of_nat (find_local_minima [5; 4; 5; 4; 5; 4; 5; 0; 5])) 6 =
    Ok ([5; 5], [5; 7]%Z) /\
  NoDup (map mot_name [5; 7]%Z).
Proof.
  assert (H : find_motif [5; 4; 5; 4; 5; 4; 5; 0; 5]
                (map Z.of_nat (find_local_minima [5; 4; 5; 4; 5; 4; 5; 0; 5])) 6 =
              Ok ([5; 5], [5; 7]%Z)) by reflexivity.
  split; [exact H |].
  apply (proj2 pymol_selection_names_distinct _ _ _ _ H).
Defined.


(** ** The motifs recorded for a list of minima *)

(** C4: for every score sequence, every list of minima that lie below the
    length of the sequence (as indices into it, and so the polished minima,
    do) and every threshold, motif extraction returns, and it records
    exactly the minima [i] with [i - 4 > 0] whose inspected slice, the
    2-element slice [data[i-1 .. i]], has every value strictly below the
    threshold; it records the first value [data[i-1]] of the slice and the
    index [i], in the order in which the minima were given, and no recorded
    index has [i - 4 <= 0]. *)
Theorem find_motif_records_guarded_minima
    (data : list Q) (minima : list Z) (threshold : Q) :
  Forall (fun i => (i < Z.of_nat (length data))%Z) minima ->
  let recorded :=
    filter (fun i => (0 <? i - 4)%Z &&
                     forallb (fun x => Qltb x threshold)
                             (py_slice data (i - 1) (i + 1)))
           minima in
  find_motif data minima threshold =
    Ok (map (fun i => nth (Z.to_nat (i - 1)) data 0) recorded, recorded) /\
  (forall i, In i recorded <->
             In i minima /\ (0 < i - 4)%Z /\
             nth (Z.to_nat (i - 1)) data 0 < threshold /\
             nth (Z.to_nat i) data 0 < threshold) /\
  (forall i, In i recorded ->
             py_slice data (i - 1) (i + 1) =
             [nth (Z.to_nat (i - 1)) data 0; nth (Z.to_nat i) data 0]) /\
  Forall (fun i => (0 < i - 4)%Z) recorded.
Proof.
  intros Hall recorded. rewrite Forall_forall in Hall.
  assert (Hsel : forall i, In i recorded <->
             In i minima /\ (0 < i - 4)%Z /\
             nth (Z.to_nat (i - 1)) data 0 < threshold /\
             nth (Z.to_nat i) data 0 < threshold).
  { intros i. unfold recorded. rewrite filter_In, andb_true_iff, Z.ltb_lt.
    split.
    - intros (Hin & Hg & Hb). rewrite (py_slice_pair data i Hg (Hall i Hin)) in Hb.
      simpl in Hb. rewrite andb_true_r, andb_true_iff, !Qltb_lt in Hb.
      tauto.
    - intros (Hin & Hg & H1 & H2). split; [exact Hin |]. split; [exact Hg |].
      rewrite (py_slice_pair data i Hg (Hall i Hin)). simpl.
      rewrite andb_true_r, andb_true_iff, !Qltb_lt. tauto. }
  split; [| split; [exact Hsel | split]].
  - unfold find_motif.
    rewrite (find_motif_loop_in_range data threshold minima [] []).
    + reflexivity.
    + rewrite Forall_forall. intros i Hin _. specialize (Hall i Hin). lia.
  - intros i Hi. apply Hsel in Hi. destruct Hi as (Hin & Hg & _).
    exact (py_slice_pair data i Hg (Hall i Hin)).
  - rewrite Forall_forall. intros i Hi. apply Hsel in Hi. tauto.
Qed.

Lemma find_motif_records_guarded_minima_witness :
  Forall (fun i => (i < Z.of_nat (length [3; 1; 4; 1; 5; 9; 2; 6; 5; 3]))%Z)
         [1; 3; 6; 8; 9]%Z /\
  find_motif [3; 1; 4; 1; 5; 9; 2; 6; 5; 3] [1; 3; 6; 8; 9]%Z 7 =
    Ok ([6; 5], [8; 9]%Z).
Proof.
  assert (H : Forall (fun i => (i < Z.of_nat (length [3; 1; 4; 1; 5; 9; 2; 6; 5; 3]))%Z)
                     [1; 3; 6; 8; 9]%Z).
  { repeat constructor. }
  split; [exact H |].
  exact (proj1 (find_motif_records_guarded_minima
                  [3; 1; 4; 1; 5; 9; 2; 6; 5; 3] [1; 3; 6; 8; 9]%Z 7 H)).
Defined.

(** * The numeric stages on binary64 *)

Import PrimFloat.

(** ** Comparisons and zeros of binary64 *)

Lemma ltb_irrefl (x : float) : (x <? x)%float = false.
Proof.
  rewrite FloatAxioms.ltb_spec. unfold SpecFloat.SFltb.
  destruct (FloatOps.Prim2SF x) as [s | s | | s m e]; simpl.
  - reflexivity.
  - now destruct s.
  - reflexivity.
  - destruct s; rewrite Z.compare_refl, Pos.compare_cont_refl; reflexivity.
Qed.

(** ** Local minima on binary64 *)

Section MeanFacts.

Variable np_add_reduce : list float -> float.

Lemma float_find_local_minima_filter (data : list float) :
  Float64.find_local_minima np_add_reduce data =
  filter (fun j => (nth j data nan <? Float64.np_mean np_add_reduce data)%float)
         (np_nonzero (Float64.boolrelextrema_less data)).
Proof.
  unfold Float64.find_local_minima, Float64.argrelextrema_less. simpl.
  apply (append_loop_filter
           (fun j => (nth j data nan <? Float64.np_mean np_add_reduce data)%float)).
Qed.

Lemma float_take_clip_inside (data : list float) (i : nat) :
  (i < length data)%nat -> Float64.np_take_clip data (Z.of_nat i) = nth i data nan.
Proof.
  intros Hi. unfold Float64.np_take_clip. f_equal. lia.
Qed.

(** The mask of [_boolrelextrema] is true exactly at the interior positions
    that compare below both neighbours. *)
Lemma float_boolrelextrema_less_true (data : list float) (i : nat) :
  (i < length data)%nat ->
  nth i (Float64.boolrelextrema_less data) false = true <->
  (0 < i < length data - 1)%nat /\
  (nth i data nan <? nth (i - 1) data nan)%float = true /\
  (nth i data nan <? nth (i + 1) data nan)%float = true.
Proof.
  intros Hi. unfold Float64.boolrelextrema_less.
  rewrite nth_map_seq by exact Hi. cbv zeta.
  rewrite andb_true_iff.
  rewrite (float_take_clip_inside data i Hi).
  destruct (Nat.eq_dec i 0) as [-> | Hi0].
  { replace (Float64.np_take_clip data (Z.of_nat 0 - 1)) with (nth 0 data nan)
      by (unfold Float64.np_take_clip; f_equal; lia).
    rewrite ltb_irrefl. split; [intros [_ H]; discriminate H | lia]. }
  destruct (Nat.eq_dec i (length data - 1)) as [Hlast | Hlast].
  { replace (Float64.np_take_clip data (Z.of_nat i + 1)) with (nth i data nan)
      by (unfold Float64.np_take_clip; f_equal; lia).
    rewrite ltb_irrefl. split; [intros [H _]; discriminate H | lia]. }
  replace (Float64.np_take_clip data (Z.of_nat i + 1)) with (nth (i + 1) data nan)
    by (unfold Float64.np_take_clip; f_equal; lia).
  replace (Float64.np_take_clip data (Z.of_nat i - 1)) with (nth (i - 1) data nan)
    by (unfold Float64.np_take_clip; f_equal; lia).
  split.
  - intros [Hp Hm]. split; [lia |]. split; assumption.
  - intros (_ & Hm & Hp). split; assumption.
Qed.

Lemma float_find_local_minima_In (data : list float) (i : nat) :
  In i (Float64.find_local_minima np_add_reduce data) <->
  (0 < i < length data - 1)%nat /\
  (nth i data nan <? nth (i - 1) data nan)%float = true /\
  (nth i data nan <? nth (i + 1) data nan)%float = true /\
  (nth i data nan <? Float64.np_mean np_add_reduce data)%float = true.
Proof.
  rewrite float_find_local_minima_filter, filter_In.
  unfold np_nonzero. rewrite np_nonzero_from_In.
  replace (length (Float64.boolrelextrema_less data)) with (length data)
    by (unfold Float64.boolrelextrema_less; now rewrite length_map, length_seq).
  rewrite Nat.sub_0_r. split.
  - intros [[Hr Hmask] Hmean].
    assert (Hi : (i < length data)%nat) by lia.
    apply (float_boolrelextrema_less_true data i Hi) in Hmask.
    destruct Hmask as (Hin & Hm & Hp). auto.
  - intros (Hin & Hm & Hp & Hmean).
    assert (Hi : (i < length data)%nat) by lia.
    split; [split; [lia |] | exact Hmean].
    apply (float_boolrelextrema_less_true data i Hi). auto.
Qed.

End MeanFacts.

(** C5 (as the claim states it): the indices returned are those below both
    neighbours and strictly below the arithmetic mean.  In
    [0.1, 0.6, 0.5, 0.8] the value at index 2 is below both neighbours and
    below the arithmetic mean of the four numbers, which exceeds 0.5; the
    mean that the code computes is the float 0.5, so it returns no index. *)
Lemma find_local_minima_compares_with_rounded_mean :
  let data := [0x1.999999999999ap-4; 0x1.3333333333333p-1; 0x1p-1;
               0x1.999999999999ap-1]%float in
  Float64.find_local_minima Float64.add_reduce_in_order data = [] /\
  Float64.np_mean Float64.add_reduce_in_order data = 0x1p-1%float /\
  (nth 2 data nan <? nth 1 data nan)%float = true /\
  (nth 2 data nan <? nth 3 data nan)%float = true /\
  match Float64.to_Q (nth 2 data nan), Float64.exact_mean data with
  | Some v, Some m => v < m
  | _, _ => False
  end.
Proof.
  vm_compute. repeat split; reflexivity.
Qed.

(** C5 (amended): the local minima returned are, in ascending order,
    exactly the indices [i] with [0 < i < length - 1] whose value compares
    strictly below both neighbours and strictly below the float that
    [np.mean] returns for the sequence, the quotient of the sum that numpy
    computes by the length; this float is the arithmetic mean up to
    rounding.  The first and the last index are never among them. *)
Theorem find_local_minima_float_spec
    (np_add_reduce : list float -> float) (data : list float) :
  StronglySorted lt (Float64.find_local_minima np_add_reduce data) /\
  (forall i : nat,
      In i (Float64.find_local_minima np_add_reduce data) <->
      (0 < i < length data - 1)%nat /\
      (nth i data nan <? nth (i - 1) data nan)%float = true /\
      (nth i data nan <? nth (i + 1) data nan)%float = true /\
      (nth i data nan <?
         np_add_reduce data / Float64.of_Z (Z.of_nat (length data)))%float = true) /\
  ~ In 0%nat (Float64.find_local_minima np_add_reduce data) /\
  ~ In (length data - 1)%nat (Float64.find_local_minima np_add_reduce data).
Proof.
  split; [| split; [exact (float_find_local_minima_In np_add_reduce data) | split]].
  - rewrite float_find_local_minima_filter.
    apply filter_sorted, np_nonzero_from_sorted.
  - intros H. apply float_find_local_minima_In in H. lia.
  - intros H. apply float_find_local_minima_In in H. lia.
Qed.

Lemma find_local_minima_float_spec_witness :
  let data := [3; 1; 2; 0; 5; 5; 4; 6; 9]%float in
  In 3%nat (Float64.find_local_minima Float64.add_reduce_in_order data) /\
  ~ In 0%nat (Float64.find_local_minima Float64.add_reduce_in_order data).
Proof.
  split.
  - apply (proj1 (proj2 (find_local_minima_float_spec Float64.add_reduce_in_order
                           [3; 1; 2; 0; 5; 5; 4; 6; 9]%float))).
    vm_compute. repeat split; apply Nat.le_refl || (repeat constructor).
  - apply (proj1 (proj2 (proj2 (find_local_minima_float_spec
                                  Float64.add_reduce_in_order
                                  [3; 1; 2; 0; 5; 5; 4; 6; 9]%float)))).
Defined.

(** ** Normalization on binary64 *)






(** C3: a constant score sequence makes the normalization fail with a
    reported error.  On [0, 0, 0, 0] the code raises nothing and returns
    four [nan], the quotient [0/0]; its docstring promises values between
    -1 and 1. *)
Theorem normalize_data_constant_gives_nan :
  Float64.normalize_data [0; 0; 0; 0]%float = Ok [nan; nan; nan; nan] /\
  forall e, Float64.normalize_data [0; 0; 0; 0]%float <> Raise e.
Proof.
  split; [reflexivity | intros e; discriminate].
Qed.





(** ** Moving average on binary64 *)

Lemma float_cumsum_from_length (data : list float) (acc : float) :
  length (Float64.cumsum_from acc data) = length data.
Proof.
  revert acc. induction data as [|x t IH]; intros acc; simpl; [reflexivity |].
  now rewrite IH.
Qed.

Lemma float_np_cumsum_length (data : list float) :
  length (Float64.np_cumsum data) = length data.
Proof.
  destruct data as [|x t]; simpl; [reflexivity |].
  now rewrite float_cumsum_from_length.
Qed.

Lemma nth_map_combine {A : Type} (f : A -> A -> A) (a b : list A) (j : nat) (d : A) :
  (j < length a)%nat -> (j < length b)%nat ->
  nth j (map (fun xy => f (fst xy) (snd xy)) (combine a b)) d =
  f (nth j a d) (nth j b d).
Proof.
  revert b j. induction a as [|x a IH]; intros b j Ha Hb; simpl in *; [lia |].
  destruct b as [|y b]; simpl in *; [lia |].
  destruct j as [|j]; [reflexivity | apply IH; lia].
Qed.

(** With a window that fits, no step of [moving_average] raises. *)
Lemma float_moving_average_unfold (data : list float) (n : nat) :
  (1 <= n <= length data)%nat ->
  let c := Float64.np_cumsum data in
  Float64.moving_average data (Z.of_nat n) =
  Ok (map (fun x => (x / Float64.of_Z (Z.of_nat n))%float)
          (skipn (n - 1)
             (firstn n c ++
              map (fun xy => (fst xy - snd xy)%float)
                  (combine (skipn n c) (firstn (length c - n) c))))).
Proof.
  intros Hn c. unfold Float64.moving_average. fold c.
  assert (Hc : length c = length data) by apply float_np_cumsum_length.
  assert (Hb1 : Float64.py_bound (Z.of_nat n) (length c) = n).
  { unfold Float64.py_bound.
    replace (Z.of_nat n <? 0)%Z with false by (symmetry; apply Z.ltb_ge; lia). lia. }
  assert (Hb2 : Float64.py_bound (- Z.of_nat n) (length c) = (length c - n)%nat).
  { unfold Float64.py_bound.
    replace (- Z.of_nat n <? 0)%Z with true by (symmetry; apply Z.ltb_lt; lia). lia. }
  unfold Float64.slice_from at 1. unfold Float64.slice_until. rewrite Hb1, Hb2.
  unfold Float64.np_subtract.
  assert (Hlen : length (skipn n c) = length (firstn (length c - n) c)).
  { rewrite length_skipn, length_firstn. lia. }
  rewrite (proj2 (Nat.eqb_eq _ _) Hlen). cbn [bind].
  unfold Float64.setitem_slice_from. cbv zeta. rewrite Hb1.
  assert (Hv : length (map (fun xy : float * float => (fst xy - snd xy)%float)
                       (combine (skipn n c) (firstn (length c - n) c))) =
               length (skipn n c)).
  { rewrite length_map, length_combine, <- Hlen. apply Nat.min_id. }
  rewrite (proj2 (Nat.eqb_eq _ _) Hv). cbn [bind].
  unfold Float64.slice_from.
  match goal with
  | |- context [Float64.py_bound (Z.of_nat n - 1) ?len] =>
      replace (Float64.py_bound (Z.of_nat n - 1) len) with (n - 1)%nat
  end; [reflexivity |].
  unfold Float64.py_bound.
  replace (Z.of_nat n - 1 <? 0)%Z with false by (symmetry; apply Z.ltb_ge; lia).
  rewrite length_app, length_firstn, Hv, length_skipn. lia.
Qed.

(** The entries of the result, for a window that fits, in terms of the
    running sums. *)
Lemma float_moving_average_entries (data : list float) (n : nat) :
  (1 <= n <= length data)%nat ->
  exists out,
    Float64.moving_average data (Z.of_nat n) = Ok out /\
    length out = (length data - n + 1)%nat /\
    forall i, (i < length data - n + 1)%nat ->
      nth i out nan =
      (Float64.window_total (Float64.np_cumsum data) n i
       / Float64.of_Z (Z.of_nat n))%float.
Proof.
  intros Hn. pose proof (float_moving_average_unfold data n Hn) as Hunf.
  cbv zeta in Hunf. set (c := Float64.np_cumsum data) in *.
  assert (Hc : length c = length data) by apply float_np_cumsum_length.
  set (v := map (fun xy : float * float => (fst xy - snd xy)%float)
                (combine (skipn n c) (firstn (length c - n) c))) in *.
  assert (Hv : length v = (length data - n)%nat).
  { unfold v. rewrite length_map, length_combine, length_skipn, length_firstn. lia. }
  set (raw := skipn (n - 1) (firstn n c ++ v)) in *.
  assert (Hraw : length raw = (length data - n + 1)%nat).
  { unfold raw. rewrite length_skipn, length_app, length_firstn. lia. }
  eexists. split; [exact Hunf |]. split; [now rewrite length_map |].
  intros i Hi.
  rewrite (nth_indep _ nan ((fun x => (x / Float64.of_Z (Z.of_nat n))%float) nan))
    by (rewrite length_map; lia).
  rewrite (map_nth (fun x => (x / Float64.of_Z (Z.of_nat n))%float)).
  f_equal.
  unfold raw. rewrite nth_skipn_shift.
  destruct i as [|j]; simpl Float64.window_total.
  - rewrite Nat.add_0_r.
    rewrite app_nth1 by (rewrite length_firstn; lia).
    now rewrite nth_firstn_below by lia.
  - rewrite app_nth2 by (rewrite length_firstn; lia).
    rewrite length_firstn.
    replace (n - 1 + S j - Nat.min n (length c))%nat with j by lia.
    unfold v.
    rewrite (nth_map_combine sub) by (rewrite ?length_skipn, ?length_firstn; lia).
    rewrite nth_skipn_shift, nth_firstn_below by lia. reflexivity.
Qed.

Lemma exact_sum_app (a b : list float) (s : Q) :
  Float64.exact_sum (a ++ b) = Some s ->
  exists sa sb, Float64.exact_sum a = Some sa /\
                Float64.exact_sum b = Some sb /\ s == sa + sb.
Proof.
  revert s. induction a as [|x a IH]; intros s H; simpl in *.
  - exists 0, s. repeat split; [exact H | ring].
  - destruct (Float64.to_Q x) as [vx |]; [| discriminate H].
    destruct (Float64.exact_sum (a ++ b)) as [r |]; [| discriminate H].
    destruct (IH r eq_refl) as (sa & sb & -> & Hb & Hr).
    injection H as <-. exists (vx + sa), sb.
    repeat split; [exact Hb | rewrite Hr; ring].
Qed.

(** When nothing rounds, entry [i] is the mean of [input[i .. i+n-1]]. *)
Lemma float_moving_average_exact (data : list float) (n : nat) :
  (1 <= n <= length data)%nat ->
  Float64.computed_exactly data n ->
  exists out,
    Float64.moving_average data (Z.of_nat n) = Ok out /\
    length out = (length data - n + 1)%nat /\
    forall i, (i < length data - n + 1)%nat ->
      match Float64.windowed_mean data n i with
      | Some m => Float64.exact (nth i out nan) m
      | None => False
      end.
Proof.
  intros Hn (Hnum & Hc & Hs & Hd).
  destruct (float_moving_average_entries data n Hn) as (out & Hout & Hlen & Hnth).
  exists out. split; [exact Hout |]. split; [exact Hlen |].
  intros i Hi. rewrite (Hnth i Hi).
  specialize (Hd i Hi).
  unfold Float64.div_exact, Float64.exact in *.
  destruct (Float64.to_Q (Float64.of_Z (Z.of_nat n))) as [vn |]; [| contradiction].
  destruct (Float64.to_Q (Float64.window_total (Float64.np_cumsum data) n i))
    as [vt |] eqn:Et; [| contradiction].
  destruct (Float64.to_Q
              (Float64.window_total (Float64.np_cumsum data) n i /
               Float64.of_Z (Z.of_nat n))) as [r |]; [| contradiction].
  assert (Hw : exists sw, Float64.exact_sum (firstn n (skipn i data)) = Some sw /\
                          vt == sw).
  { destruct i as [|j]; simpl Float64.window_total in Et.
    - pose proof (Hc (n - 1)%nat ltac:(lia)) as Hc0.
      replace (S (n - 1)) with n in Hc0 by lia. simpl skipn.
      destruct (Float64.exact_sum (firstn n data)) as [s |]; [| contradiction].
      rewrite Et in Hc0. exists s. split; [reflexivity | exact Hc0].
    - pose proof (Hs j ltac:(lia)) as Hsj. unfold Float64.sub_exact in Hsj.
      pose proof (Hc (n + j)%nat ltac:(lia)) as Hc1.
      pose proof (Hc j ltac:(lia)) as Hc2.
      replace (S (n + j)) with (S j + n)%nat in Hc1 by lia.
      rewrite firstn_plus in Hc1.
      destruct (Float64.exact_sum
                  (firstn (S j) data ++ firstn n (skipn (S j) data)))
        as [s1 |] eqn:E1; [| contradiction].
      destruct (exact_sum_app _ _ _ E1) as (sa & sb & Ea & Eb & Hsum).
      rewrite Ea in Hc2.
      destruct (Float64.to_Q (nth (n + j) (Float64.np_cumsum data) nan)) as [va |];
        [| contradiction].
      destruct (Float64.to_Q (nth j (Float64.np_cumsum data) nan)) as [vb |];
        [| contradiction].
      rewrite Et in Hsj. exists sb. split; [exact Eb |].
      rewrite Hsj, Hc1, Hc2, Hsum. ring. }
  destruct Hw as (sw & Esw & Hvt).
  unfold Float64.windowed_mean, Float64.exact_mean.
  rewrite Esw. simpl option_map.
  rewrite length_firstn, length_skipn.
  replace (Nat.min n (length data - i)) with n by lia.
  rewrite Hd, Hnum, Hvt. reflexivity.
Qed.

(** C7 (counterexample): on the input [2^53, 1, 1] the running sums are
    all [2^53], since [2^53 + 1] rounds to [2^53]; with the window 2 the
    entry at position 1 is [(2^53 - 2^53) / 2 = 0], whereas the arithmetic
    mean of [input[1 .. 2]] is 1. *)
Lemma moving_average_differs_from_windowed_mean :
  let data := [0x1p53; 1; 1]%float in
  Float64.np_cumsum data = [0x1p53; 0x1p53; 0x1p53]%float /\
  Float64.moving_average data 2 = Ok [0x1p52; 0]%float /\
  Float64.exact 0%float 0 /\
  match Float64.windowed_mean data 2 1 with
  | Some m => m == 1
  | None => False
  end.
Proof.
  vm_compute. repeat split; reflexivity.
Qed.

(** C7 (amended): for every binary64 input of length [L] and every window
    [n] with [1 <= n <= L], the moving average returns a sequence of length
    [L - n + 1]; its entry [i] is the float quotient by [n] of the window
    total taken from the float running sums [c] of the input, [c[n-1]] for
    [i = 0] and [c[n-1+i] - c[i-1]] after it.  When none of these float
    operations rounds, entry [i] is the arithmetic mean of
    [input[i .. i+n-1]]. *)
Theorem moving_average_float_windowed_mean (data : list float) (n : nat) :
  (1 <= n <= length data)%nat ->
  exists out,
    Float64.moving_average data (Z.of_nat n) = Ok out /\
    length out = (length data - n + 1)%nat /\
    (forall i, (i < length data - n + 1)%nat ->
       nth i out nan =
       (Float64.window_total (Float64.np_cumsum data) n i
        / Float64.of_Z (Z.of_nat n))%float) /\
    (Float64.computed_exactly data n ->
     forall i, (i < length data - n + 1)%nat ->
       match Float64.windowed_mean data n i with
       | Some m => Float64.exact (nth i out nan) m
       | None => False
       end).
Proof.
  intros Hn.
  destruct (float_moving_average_entries data n Hn) as (out & Hout & Hlen & Hnth).
  exists out. repeat split; [exact Hout | exact Hlen | exact Hnth |].
  intros Hex.
  destruct (float_moving_average_exact data n Hn Hex) as (out' & Hout' & _ & Hmean).
  rewrite Hout in Hout'. injection Hout' as <-. exact Hmean.
Qed.

Lemma moving_average_float_windowed_mean_witness :
  let data := [1; 2; 3; 4; 5]%float in
  (1 <= 3 <= length data)%nat /\
  Float64.computed_exactly data 3 /\
  exists out,
    Float64.moving_average data (Z.of_nat 3) = Ok out /\
    length out = (length data - 3 + 1)%nat /\
    (forall i, (i < length data - 3 + 1)%nat ->
       nth i out nan =
       (Float64.window_total (Float64.np_cumsum data) 3 i
        / Float64.of_Z (Z.of_nat 3))%float) /\
    (Float64.computed_exactly data 3 ->
     forall i, (i < length data - 3 + 1)%nat ->
       match Float64.windowed_mean data 3 i with
       | Some m => Float64.exact (nth i out nan) m
       | None => False
       end).
Proof.
  intros data.
  split; [simpl; lia |].
  split.
  - unfold Float64.computed_exactly.
    split; [vm_compute; reflexivity |].
    split; [| split].
    + intros k Hk.
      do 5 (destruct k as [|k]; [vm_compute; reflexivity |]).
      simpl in Hk. lia.
    + intros j Hj.
      do 2 (destruct j as [|j]; [vm_compute; reflexivity |]).
      simpl in Hj. lia.
    + intros i Hi.
      do 3 (destruct i as [|i]; [vm_compute; reflexivity |]).
      simpl in Hi. lia.
  - apply (moving_average_float_windowed_mean data 3). simpl. lia.
Defined.

(** ** Window 1 and constant sequences on binary64 *)

Lemma Forall_window {A : Type} (P : A -> Prop) (l : list A) (n i : nat) :
  Forall P l -> Forall P (firstn n (skipn i l)).
Proof.
  intros H.
  rewrite <- (firstn_skipn i l) in H. apply Forall_app in H. destruct H as [_ H].
  rewrite <- (firstn_skipn n (skipn i l)) in H. apply Forall_app in H.
  exact (proj1 H).
Qed.

Lemma exact_sum_constant (x : float) (v : Q) (l : list float) :
  Forall (fun y => y = x) l -> Float64.to_Q x = Some v ->
  exists s, Float64.exact_sum l = Some s /\
            s == inject_Z (Z.of_nat (length l)) * v.
Proof.
  intros Hall Hx. induction Hall as [|y t -> _ IH].
  - exists 0. split; [reflexivity |]. simpl. ring.
  - destruct IH as (s & Es & Hs).
    exists (v + s). split; [simpl; now rewrite Hx, Es |].
    rewrite Hs. cbn [length]. rewrite Nat2Z.inj_succ. unfold Z.succ.
    rewrite inject_Z_plus. ring.
Qed.

Lemma exact_Qeq (x : float) (v w : Q) :
  v == w -> Float64.exact x v -> Float64.exact x w.
Proof.
  unfold Float64.exact. intros Hvw H.
  destruct (Float64.to_Q x) as [r |]; [| exact H].
  now rewrite H.
Qed.

(** C8 (counterexample): with the window 1 the input
    [0.1, 0.2, 0.3, 0.4] does not come back, the entry at position 1 is
    [(0.1 + 0.2) - 0.1], the float above 0.2; and the constant sequence of
    four times the float 1/3 smoothed with the window 2 has the float above
    1/3 as its middle entry. *)
Lemma moving_average_window_1_and_constant_round :
  let data := [0x1.999999999999ap-4; 0x1.999999999999ap-3;
               0x1.3333333333333p-2; 0x1.999999999999ap-2]%float in
  let third := 0x1.5555555555555p-2%float in
  Float64.moving_average data 1 =
    Ok [0x1.999999999999ap-4; 0x1.999999999999bp-3;
        0x1.3333333333334p-2; 0x1.9999999999998p-2]%float /\
  (0x1.999999999999bp-3 =? 0x1.999999999999ap-3)%float = false /\
  Float64.moving_average [third; third; third; third] 2 =
    Ok [third; 0x1.5555555555556p-2; third]%float /\
  (0x1.5555555555556p-2 =? third)%float = false.
Proof.
  vm_compute. repeat split; reflexivity.
Qed.

(** C8 (amended): for a binary64 input of length [L] and a window [n] with
    [1 <= n <= L] on which no float operation of the moving average rounds,
    the result has length [L - n + 1]; with [n = 1] its entries have the
    values of the entries of the input, and on a constant input all its
    entries have the value of the constant. *)
Theorem moving_average_identity_and_constant_when_exact
    (data : list float) (n : nat) :
  (1 <= n <= length data)%nat ->
  Float64.computed_exactly data n ->
  exists out,
    Float64.moving_average data (Z.of_nat n) = Ok out /\
    length out = (length data - n + 1)%nat /\
    (n = 1%nat ->
     forall i, (i < length data)%nat ->
       match Float64.to_Q (nth i data nan) with
       | Some v => Float64.exact (nth i out nan) v
       | None => False
       end) /\
    (forall x, Forall (fun y => y = x) data ->
       match Float64.to_Q x with
       | Some v => Forall (fun y => Float64.exact y v) out
       | None => False
       end).
Proof.
  intros Hn Hex.
  destruct (float_moving_average_exact data n Hn Hex) as (out & Hout & Hlen & Hmean).
  exists out. split; [exact Hout |]. split; [exact Hlen |]. split.
  - intros -> i Hi.
    pose proof (Hmean i ltac:(lia)) as Hi'.
    unfold Float64.windowed_mean, Float64.exact_mean in Hi'.
    rewrite (skipn_nth_cons i data nan Hi) in Hi'. simpl in Hi'.
    destruct (Float64.to_Q (nth i data nan)) as [v |]; simpl in Hi'; [| exact Hi'].
    unfold Float64.exact in *.
    destruct (Float64.to_Q (nth i out nan)) as [r |]; [| exact Hi'].
    rewrite Hi'. field.
  - intros x Hall.
    assert (Hnz : ~ inject_Z (Z.of_nat n) == 0).
    { unfold Qeq. simpl. lia. }
    assert (Hwin : forall i, (i < length data - n + 1)%nat ->
              Forall (fun y => y = x) (firstn n (skipn i data)) /\
              length (firstn n (skipn i data)) = n).
    { intros i Hi. split; [now apply Forall_window |].
      rewrite length_firstn, length_skipn. lia. }
    destruct (Float64.to_Q x) as [v |] eqn:Hx.
    + apply Forall_nth. intros i d Hi. rewrite Hlen in Hi.
      rewrite (nth_indep out d nan) by lia.
      pose proof (Hmean i Hi) as Hi'.
      destruct (Hwin i Hi) as [Hc Hl].
      destruct (exact_sum_constant x v _ Hc Hx) as (s & Es & Hs).
      unfold Float64.windowed_mean, Float64.exact_mean in Hi'.
      rewrite Es, Hl in Hi'. simpl option_map in Hi'. rewrite Hl in Hs.
      unfold Float64.exact in *.
      destruct (Float64.to_Q (nth i out nan)) as [r |]; [| exact Hi'].
      rewrite Hi', Hs. field. exact Hnz.
    + pose proof (Hmean 0%nat ltac:(lia)) as H0.
      destruct (Hwin 0%nat ltac:(lia)) as [Hc Hl].
      unfold Float64.windowed_mean, Float64.exact_mean in H0.
      destruct (firstn n (skipn 0 data)) as [|y t]; [simpl in Hl; lia |].
      inversion Hc as [|? ? Hy _]; subst.
      simpl in H0. rewrite Hx in H0. exact H0.
Qed.

Lemma moving_average_identity_and_constant_when_exact_witness :
  (Float64.computed_exactly [1; 2; 3]%float 1 /\
   exists out,
     Float64.moving_average [1; 2; 3]%float 1 = Ok out /\
     Forall2 Float64.exact out [1; 2; 3]) /\
  (Float64.computed_exactly [3; 3; 3; 3]%float 2 /\
   exists out,
     Float64.moving_average [3; 3; 3; 3]%float 2 = Ok out /\
     length out = 3%nat /\
     Forall (fun y => Float64.exact y 3) out).
Proof.
  assert (H1 : Float64.computed_exactly [1; 2; 3]%float 1).
  { unfold Float64.computed_exactly.
    split; [vm_compute; reflexivity |].
    split; [| split].
    - intros k Hk.
      do 3 (destruct k as [|k]; [vm_compute; reflexivity |]).
      simpl in Hk. lia.
    - intros j Hj.
      do 2 (destruct j as [|j]; [vm_compute; reflexivity |]).
      simpl in Hj. lia.
    - intros i Hi.
      do 3 (destruct i as [|i]; [vm_compute; reflexivity |]).
      simpl in Hi. lia. }
  assert (H2 : Float64.computed_exactly [3; 3; 3; 3]%float 2).
  { unfold Float64.computed_exactly.
    split; [vm_compute; reflexivity |].
    split; [| split].
    - intros k Hk.
      do 4 (destruct k as [|k]; [vm_compute; reflexivity |]).
      simpl in Hk. lia.
    - intros j Hj.
      do 2 (destruct j as [|j]; [vm_compute; reflexivity |]).
      simpl in Hj. lia.
    - intros i Hi.
      do 3 (destruct i as [|i]; [vm_compute; reflexivity |]).
      simpl in Hi. lia. }
  split.
  - split; [exact H1 |].
    destruct (moving_average_identity_and_constant_when_exact
                [1; 2; 3]%float 1 ltac:(simpl; lia) H1)
      as (out & Hout & Hlen & Hid & _).
    exists out. split; [exact Hout |].
    assert (Hval : forall i, (i < 3)%nat ->
              Float64.exact (nth i out nan) (nth i [1; 2; 3] 0)).
    { intros i Hi. pose proof (Hid eq_refl i Hi) as Hv.
      do 3 (destruct i as [|i];
            [cbn [nth] in Hv |- *;
             destruct (Float64.to_Q _) as [v |] eqn:E in Hv; [| contradiction];
             vm_compute in E; injection E as <-;
             refine (exact_Qeq _ _ _ _ Hv); vm_compute; reflexivity |]).
      lia. }
    destruct out as [|a [|b [|c [|? ?]]]]; try discriminate Hlen.
    repeat constructor.
    + exact (Hval 0%nat ltac:(lia)).
    + exact (Hval 1%nat ltac:(lia)).
    + exact (Hval 2%nat ltac:(lia)).
  - split; [exact H2 |].
    destruct (moving_average_identity_and_constant_when_exact
                [3; 3; 3; 3]%float 2 ltac:(simpl; lia) H2)
      as (out & Hout & Hlen & _ & Hconst).
    exists out. split; [exact Hout |]. split; [exact Hlen |].
    pose proof (Hconst 3%float ltac:(repeat constructor)) as Hv.
    destruct (Float64.to_Q 3%float) as [v |] eqn:E; [| contradiction].
    vm_compute in E. injection E as <-.
    refine (Forall_impl _ _ Hv). intros y Hy.
    refine (exact_Qeq _ _ _ _ Hy). vm_compute. reflexivity.
Defined.
